(** * Bounded-parallel divide-and-conquer sorting engine

    A shallow embedding of the Go sorting benchmark (package main):
    - the quicksort file : quickSort, quickSortHelper, partition3Way,
                          medianOfThree, insertionSort
    - mergesort.go      : mergeSort, merge
    - prl_quicksort.go  : parallelQuickSort, parallelQuickSortHelper,
                          getOptimalThreshold, workerPool, initWorkerPool
    - prl_mergesort.go  : parallelMergeSort, parallelMergeSortHelper,
                          getWorkerPoolStatus, resetWorkerPool,
                          safeParallelQuickSort, safeParallelMergeSort

    Modelling conventions.
    - A Go [int] is a [Z].  Slice indices and lengths are below 2^60 (a slice
      of 8-byte ints cannot be longer), so [low+high], [high-low+1] and the
      like never wrap around; Go's [/] truncates and is [Z.quot].
    - The backing array of a slice is a [list]; an index expression outside
      [0, len) panics, as the Go runtime does.
    - The sorters only compare elements.  The element type is kept abstract,
      with a projection [key] to the integer that is compared, so that the
      stability of the merge sort can be stated; the program itself is the
      instance where elements are integers and [key] is the identity.
    - Code that mutates an array in place runs in a state monad over the
      array; a computation ends normally, panics, or never returns.
    - Loops carry a fuel argument that bounds the number of iterations; it is
      always initialised to a bound computed from the arguments, and running
      out of it is the outcome [Hang]. *)

From stdpp Require Import base list sorting.
From Stdlib Require Import ZArith Lia.

#[local] Open Scope Z_scope.

(** ** Outcomes and the state monad *)

Inductive outcome (A : Type) : Type :=
| Done (a : A)   (* normal return *)
| Panic          (* run-time panic *)
| Hang.          (* never returns *)
Arguments Done {A} a.
Arguments Panic {A}.
Arguments Hang {A}.

Definition M (S A : Type) : Type := S → outcome A * S.

Definition ret {S A} (a : A) : M S A := λ s, (Done a, s).
Definition panic {S A} : M S A := λ s, (Panic, s).
Definition hang {S A} : M S A := λ s, (Hang, s).

Definition bind {S A B} (m : M S A) (k : A → M S B) : M S B :=
  λ s, match m s with
       | (Done a, s') => k a s'
       | (Panic, s') => (Panic, s')
       | (Hang, s') => (Hang, s')
       end.

Declare Scope go_scope.
Delimit Scope go_scope with go.
Notation "'let*' x ':=' m 'in' k" := (bind m (λ x, k))
  (at level 10, x pattern, m at level 100, k at level 200) : go_scope.
Notation "m '>>' k" := (bind m (λ _, k))
  (at level 100, k at level 200, right associativity) : go_scope.
#[local] Open Scope go_scope.

(** [if b { m }] *)
Definition when {S} (b : bool) (m : M S unit) : M S unit :=
  if b then m else ret tt.

(** [len(l)] *)
Definition len {A} (l : list A) : Z := Z.of_nat (length l).

(** [l[i]] on a slice value: panics outside [0, len(l)). *)
Definition index {S A} (l : list A) (i : Z) : M S A :=
  if 0 <=? i then
    match l !! Z.to_nat i with
    | Some x => ret x
    | None => panic
    end
  else panic.

(** [arr[i]] as an expression, on the array held in the state. *)
Definition rd {A} (i : Z) : M (list A) A := λ a, index a i a.

(** [arr[i] = v] *)
Definition wr {A} (i : Z) (v : A) : M (list A) unit :=
  λ a, if (0 <=? i) && (i <? len a)
       then (Done tt, <[Z.to_nat i := v]> a)
       else (Panic, a).

(** [arr[x], arr[y] = arr[y], arr[x]]: both right-hand sides are read, then
    the two assignments are carried out from left to right. *)
Definition swap {A} (x y : Z) : M (list A) unit :=
  let* vy := rd y in
  let* vx := rd x in
  wr x vy >> wr y vx.

(** Run [m] on a freshly allocated array [init] and return its final
    contents (the local [result] slice of [mergeSort]). *)
Definition on_fresh {S A} (init : list A) (m : M (list A) unit) : M S (list A) :=
  λ s, match m init with
       | (Done _, a) => (Done a, s)
       | (Panic, _) => (Panic, s)
       | (Hang, _) => (Hang, s)
       end.

(** ** The sequential sorters (the quicksort file, mergesort.go) *)

Section Sequential.
Context {A : Type} (key : A → Z).

(** func medianOfThree(arr []int, a, b, c int) *)
Definition medianOfThree (a b c : Z) : M (list A) unit :=
  let* va := rd a in
  let* vb := rd b in
  when (key va >? key vb) (swap a b) >>
  let* vb := rd b in
  let* vc := rd c in
  when (key vb >? key vc) (swap b c) >>
  let* va := rd a in
  let* vb := rd b in
  when (key va >? key vb) (swap a b) >>
  swap a b.

(** The loop [for i < gt { ... }] of partition3Way. *)
Fixpoint partition3Way_loop (fuel : nat) (pivot : A) (lt i gt : Z)
  : M (list A) (Z * Z) :=
  if i <? gt then
    match fuel with
    | O => hang
    | S fuel' =>
        let* x := rd i in
        if key x <? key pivot then
          swap lt i >>
          partition3Way_loop fuel' pivot (lt + 1) (i + 1) gt
        else
          let* x := rd i in
          if key x >? key pivot then
            let gt := gt - 1 in
            swap i gt >>
            partition3Way_loop fuel' pivot lt i gt
          else
            partition3Way_loop fuel' pivot lt (i + 1) gt
    end
  else ret (lt, gt - 1).

(** func partition3Way(arr []int, low, high int) (int, int) *)
Definition partition3Way (low high : Z) : M (list A) (Z * Z) :=
  medianOfThree low ((low + high) `quot` 2) high >>
  let* pivot := rd low in
  partition3Way_loop (Z.to_nat (high - low)) pivot low (low + 1) (high + 1).

(** The inner loop [for j >= low && arr[j] > key { ... }] of insertionSort;
    it returns the final [j]. *)
Fixpoint insertionSort_shift (fuel : nat) (low : Z) (cur : A) (j : Z)
  : M (list A) Z :=
  if j >=? low then
    let* y := rd j in
    if key y >? key cur then
      match fuel with
      | O => hang
      | S fuel' =>
          let* y := rd j in
          wr (j + 1) y >>
          insertionSort_shift fuel' low cur (j - 1)
      end
    else ret j
  else ret j.

(** The outer loop [for i := low + 1; i <= high; i++ { ... }]. *)
Fixpoint insertionSort_loop (fuel : nat) (low high i : Z) : M (list A) unit :=
  if i <=? high then
    match fuel with
    | O => hang
    | S fuel' =>
        let* cur := rd i in
        let* j := insertionSort_shift (Z.to_nat (i - low)) low cur (i - 1) in
        wr (j + 1) cur >>
        insertionSort_loop fuel' low high (i + 1)
    end
  else ret tt.

(** func insertionSort(arr []int, low, high int) *)
Definition insertionSort (low high : Z) : M (list A) unit :=
  insertionSort_loop (Z.to_nat (high - low)) low high (low + 1).

(** func quickSortHelper(arr []int, low, high int).  One iteration of the
    loop [for low < high] is one unfolding; the assignment of [low] or
    [high] followed by the next iteration is the second call. *)
Fixpoint quickSortHelper_fuel (fuel : nat) (low high : Z) : M (list A) unit :=
  if low <? high then
    match fuel with
    | O => hang
    | S fuel' =>
        let size := high - low + 1 in
        if size <=? 16 then insertionSort low high
        else
          let* (lt, gt) := partition3Way low high in
          if lt - low <? high - gt then
            quickSortHelper_fuel fuel' low (lt - 1) >>
            quickSortHelper_fuel fuel' (gt + 1) high
          else
            quickSortHelper_fuel fuel' (gt + 1) high >>
            quickSortHelper_fuel fuel' low (lt - 1)
    end
  else ret tt.

Definition quickSortHelper (low high : Z) : M (list A) unit :=
  quickSortHelper_fuel (Z.to_nat (high - low + 1)) low high.

(** func quickSort(arr []int) *)
Definition quickSort : M (list A) unit :=
  λ arr, if len arr <? 2 then (Done tt, arr)
         else quickSortHelper 0 (len arr - 1) arr.

(** The loop [for j := low; j < high; j++ { ... }] of partition; it returns
    the final [i]. *)
Fixpoint partition_loop (fuel : nat) (pivot : A) (high i j : Z)
  : M (list A) Z :=
  if j <? high then
    match fuel with
    | O => hang
    | S fuel' =>
        let* x := rd j in
        if key x <=? key pivot then
          let i := i + 1 in
          swap i j >>
          partition_loop fuel' pivot high i (j + 1)
        else
          partition_loop fuel' pivot high i (j + 1)
    end
  else ret i.

(** func partition(arr []int, low, high int) int *)
Definition partition (low high : Z) : M (list A) Z :=
  let* pivot := rd high in
  let* i := partition_loop (Z.to_nat (high - low)) pivot high (low - 1) low in
  swap (i + 1) high >>
  ret (i + 1).

(** The loop [for i < len(left) && j < len(right) { ... }] of merge. *)
Fixpoint merge_loop {S} (fuel : nat) (left right : list A) (i j : Z)
    (result : list A) : M S (Z * Z * list A) :=
  if (i <? len left) && (j <? len right) then
    match fuel with
    | O => hang
    | S fuel' =>
        let* x := index left i in
        let* y := index right j in
        if key x <=? key y then
          merge_loop fuel' left right (i + 1) j (result ++ [x])
        else
          merge_loop fuel' left right i (j + 1) (result ++ [y])
    end
  else ret (i, j, result).

(** func merge(left, right []int) []int *)
Definition merge {S} (left right : list A) : M S (list A) :=
  let* (i, j, result) :=
    merge_loop (length left + length right) left right 0 0 [] in
  let result :=
    if i <? len left then result ++ drop (Z.to_nat i) left else result in
  let result :=
    if j <? len right then result ++ drop (Z.to_nat j) right else result in
  ret result.

(** func mergeSort(arr []int) []int *)
Fixpoint mergeSort_fuel {S} (fuel : nat) (arr : list A) : M S (list A) :=
  if len arr <=? 1 then ret arr
  else if len arr <=? 16 then
    on_fresh arr (insertionSort 0 (len arr - 1))
  else
    match fuel with
    | O => hang
    | S fuel' =>
        let mid := len arr `quot` 2 in
        let* lft := mergeSort_fuel fuel' (take (Z.to_nat mid) arr) in
        let* rgt := mergeSort_fuel fuel' (drop (Z.to_nat mid) arr) in
        merge lft rgt
    end.

Definition mergeSort {S} (arr : list A) : M S (list A) :=
  mergeSort_fuel (length arr) arr.

End Sequential.

(** ** The worker pool, the threshold and the parallel schedulers
       (prl_quicksort.go, prl_mergesort.go) *)

(** func getOptimalThreshold(totalSize, currentSize int) int *)
Definition getOptimalThreshold (totalSize currentSize : Z) : Z :=
  if totalSize <? 1000 then totalSize
  else if totalSize <? 10000 then 300
  else if totalSize <? 100000 then 800
  else 1500.

(** The buffered channel [workerPool chan struct{}]: [used] is [len] of the
    channel, the number of slots taken, and [capacity] its [cap]. *)
Record Gate : Type := { used : nat; capacity : nat }.

(** What a scheduler does, recorded in program order. *)
Inductive event : Type :=
| EvThreshold (totalSize currentSize threshold : Z)
    (* a call of getOptimalThreshold and its result *)
| EvSequential (low high : Z)
    (* the range is handed to the sequential sorter *)
| EvPartition (low high lt gt : Z)
    (* the scheduler's own call of partition3Way *)
| EvSplit (n mid : Z)
    (* the merge scheduler splits n elements at mid *)
| EvTryAcquire (low high : Z) (ok : bool)
    (* the select on [workerPool <- struct{}{}] of the task for a zone *)
| EvRelease.
    (* the deferred [<-workerPool] of a task that holds a slot *)

(** A Go slice value of the merge sorters: [nil] or a slice with contents. *)
Inductive slice (A : Type) : Type :=
| nil_slice
| mk_slice (l : list A).
Arguments nil_slice {A}.
Arguments mk_slice {A} l.

Definition elems {A} (s : slice A) : list A :=
  match s with nil_slice => [] | mk_slice l => l end.

(** The state of a parallel sort: the array sorted in place, the global
    [workerPool] ([None] while it is nil), the scheduling decisions still to
    come, and the events so far.  The two tasks of a fork work on disjoint
    data and are joined before the caller goes on; they are run one after the
    other, and what the interleaving with other tasks decides - whether a
    slot is free at the moment of a select - is read from [sched]. *)
Record World (A : Type) : Type := mkWorld {
  arr : list A;
  workerPool : option Gate;
  sched : list bool;
  trace : list event
}.
Arguments mkWorld {A} _ _ _ _.
Arguments arr {A} _.
Arguments workerPool {A} _.
Arguments sched {A} _.
Arguments trace {A} _.

Definition set_arr {A} (a : list A) (w : World A) : World A :=
  mkWorld a (workerPool w) (sched w) (trace w).
Definition set_pool {A} (p : option Gate) (w : World A) : World A :=
  mkWorld (arr w) p (sched w) (trace w).

(** Occupancy of the pool, as getWorkerPoolStatus reports it. *)
Definition occupancy {A} (w : World A) : nat :=
  match workerPool w with Some g => used g | None => 0%nat end.

Section Parallel.
Context {A : Type} (key : A → Z).

Definition emit (e : event) : M (World A) unit :=
  λ w, (Done tt, mkWorld (arr w) (workerPool w) (sched w) (trace w ++ [e])).

(** A sequential in-place sorter run on the array of the world. *)
Definition on_arr {X} (m : M (list A) X) : M (World A) X :=
  λ w, let (r, a) := m (arr w) in (r, set_arr a w).

(** [len(arr)] of the array of the world. *)
Definition arr_len : M (World A) Z := λ w, (Done (len (arr w)), w).

(** func initWorkerPool(): [workerPoolOnce.Do] makes the channel once,
    with [runtime.NumCPU()] slots. *)
Definition initWorkerPool (numCPU : Z) : M (World A) unit :=
  λ w, match workerPool w with
       | Some _ => (Done tt, w)
       | None =>
           (Done tt,
            set_pool (Some {| used := 0; capacity := Z.to_nat numCPU |}) w)
       end.

(** [select { case workerPool <- struct{}{}: ... default: ... }] of the
    task for the zone [low..high]: the send goes through when the buffer
    is not full and no other task took the last slot first. *)
Definition try_acquire (low high : Z) : M (World A) bool :=
  λ w,
    let (free, rest) :=
      match sched w with [] => (true, []) | c :: r => (c, r) end in
    match workerPool w with
    | Some g =>
        if free && (used g <? capacity g)%nat then
          (Done true,
           mkWorld (arr w) (Some {| used := S (used g); capacity := capacity g |})
                   rest (trace w ++ [EvTryAcquire low high true]))
        else
          (Done false,
           mkWorld (arr w) (workerPool w) rest
                   (trace w ++ [EvTryAcquire low high false]))
    | None =>
        (Done false,
         mkWorld (arr w) None rest (trace w ++ [EvTryAcquire low high false]))
    end.

(** [<-workerPool]: takes one element out of the buffer; on an empty or nil
    channel the receive never returns. *)
Definition recv : M (World A) unit :=
  λ w, match workerPool w with
       | Some {| used := S n; capacity := c |} =>
           (Done tt, set_pool (Some {| used := n; capacity := c |}) w)
       | Some {| used := O |} => (Hang, w)
       | None => (Hang, w)
       end.

(** [defer cleanup(); body]: the deferred call runs when the body returns
    and when it panics, and a panic goes on after it. *)
Definition defer {S X} (cleanup : M S unit) (body : M S X) : M S X :=
  λ s, match body s with
       | (Done x, s1) =>
           match cleanup s1 with
           | (Done _, s2) => (Done x, s2)
           | (Panic, s2) => (Panic, s2)
           | (Hang, s2) => (Hang, s2)
           end
       | (Panic, s1) =>
           match cleanup s1 with
           | (Done _, s2) => (Panic, s2)
           | (Panic, s2) => (Panic, s2)
           | (Hang, s2) => (Hang, s2)
           end
       | (Hang, s1) => (Hang, s1)
       end.

(** [defer func() { if r := recover(); r != nil { handler } }(); body] in a
    function whose results are unnamed: after a panic the handler runs and
    the function returns the zero value of its result type. *)
Definition recover_with {S X} (zero : X) (handler : M S unit) (body : M S X)
  : M S X :=
  λ s, match body s with
       | (Done x, s1) => (Done x, s1)
       | (Panic, s1) =>
           match handler s1 with
           | (Done _, s2) => (Done zero, s2)
           | (Panic, s2) => (Panic, s2)
           | (Hang, s2) => (Hang, s2)
           end
       | (Hang, s1) => (Hang, s1)
       end.

(** [wg.Add(2); go t1(); go t2(); wg.Wait()]: both tasks run.  The call is
    complete when both tasks have ended; it ends normally when both did,
    and a panic in a task is a panic of the whole. *)
Definition fork_join {S X Y} (t1 : M S X) (t2 : M S Y) : M S (X * Y) :=
  λ s, let (r1, s1) := t1 s in
       let (r2, s2) := t2 s1 in
       (match r1, r2 with
        | Done x, Done y => Done (x, y)
        | Hang, _ | _, Hang => Hang
        | _, _ => Panic
        end, s2).

(** The body of one forked goroutine, for the zone [low..high]:
    [select { case workerPool <- struct{}{}:
                defer func() { <-workerPool }(); par
              default: seq }] *)
Definition forked {X} (low high : Z) (par seq : M (World A) X)
  : M (World A) X :=
  let* ok := try_acquire low high in
  if ok then defer (recv >> emit EvRelease) par else seq.

(** func parallelQuickSortHelper(arr []int, low, high, depth int) *)
Fixpoint parallelQuickSortHelper_fuel (fuel : nat) (low high depth : Z)
  : M (World A) unit :=
  let size := high - low + 1 in
  let* n := arr_len in
  let threshold := getOptimalThreshold n size in
  emit (EvThreshold n size threshold) >>
  if low <? high then
    if (depth <=? 1) || (size <=? threshold) then
      emit (EvSequential low high) >>
      on_arr (quickSortHelper key low high)
    else
      match fuel with
      | O => hang
      | S fuel' =>
          let* (lt, gt) := on_arr (partition3Way key low high) in
          emit (EvPartition low high lt gt) >>
          fork_join
            (forked low (lt - 1)
               (parallelQuickSortHelper_fuel fuel' low (lt - 1) (depth `quot` 2))
               (on_arr (quickSortHelper key low (lt - 1))))
            (forked (gt + 1) high
               (parallelQuickSortHelper_fuel fuel' (gt + 1) high (depth `quot` 2))
               (on_arr (quickSortHelper key (gt + 1) high))) >>
          ret tt
      end
  else ret tt.

Definition parallelQuickSortHelper (low high depth : Z) : M (World A) unit :=
  parallelQuickSortHelper_fuel (Z.to_nat (high - low + 1)) low high depth.

(** func parallelQuickSort(arr []int); [numCPU] is [runtime.NumCPU()]. *)
Definition parallelQuickSort (numCPU : Z) : M (World A) unit :=
  λ w, if len (arr w) <? 2 then (Done tt, w)
       else (initWorkerPool numCPU >>
             parallelQuickSortHelper 0 (len (arr w) - 1) numCPU) w.

(** func parallelMergeSortHelper(arr []int, depth int) []int.  The zones in
    the events are index ranges of the argument [arr]. *)
Fixpoint parallelMergeSortHelper_fuel (fuel : nat) (arr : list A) (depth : Z)
  : M (World A) (list A) :=
  if len arr <=? 1 then ret arr
  else
    let threshold := getOptimalThreshold (len arr) (len arr) in
    emit (EvThreshold (len arr) (len arr) threshold) >>
    if (depth <=? 1) || (len arr <? threshold) then
      emit (EvSequential 0 (len arr - 1)) >>
      mergeSort key arr
    else
      match fuel with
      | O => hang
      | S fuel' =>
          let mid := len arr `quot` 2 in
          emit (EvSplit (len arr) mid) >>
          let* (lft, rgt) :=
            fork_join
              (forked 0 (mid - 1)
                 (parallelMergeSortHelper_fuel fuel'
                    (take (Z.to_nat mid) arr) (depth `quot` 2))
                 (mergeSort key (take (Z.to_nat mid) arr)))
              (forked mid (len arr - 1)
                 (parallelMergeSortHelper_fuel fuel'
                    (drop (Z.to_nat mid) arr) (depth `quot` 2))
                 (mergeSort key (drop (Z.to_nat mid) arr))) in
          merge key lft rgt
      end.

Definition parallelMergeSortHelper (arr : list A) (depth : Z)
  : M (World A) (list A) :=
  parallelMergeSortHelper_fuel (length arr) arr depth.

(** func parallelMergeSort(arr []int) []int *)
Definition parallelMergeSort (numCPU : Z) (arr : list A)
  : M (World A) (list A) :=
  initWorkerPool numCPU >> parallelMergeSortHelper arr numCPU.

(** func getWorkerPoolStatus() (used int, capacity int) *)
Definition getWorkerPoolStatus (w : World A) : Z * Z :=
  match workerPool w with
  | None => (0, 0)
  | Some g => (Z.of_nat (used g), Z.of_nat (capacity g))
  end.

(** The loop [for len(workerPool) > 0 { <-workerPool }]. *)
Fixpoint resetWorkerPool_loop (fuel : nat) : M (World A) unit :=
  λ w, if (0 <? occupancy w)%nat then
         match fuel with
         | O => (Hang, w)
         | S fuel' => (recv >> resetWorkerPool_loop fuel') w
         end
       else (Done tt, w).

(** func resetWorkerPool() *)
Definition resetWorkerPool : M (World A) unit :=
  λ w, match workerPool w with
       | None => (Done tt, w)
       | Some g => resetWorkerPool_loop (used g) w
       end.

(** A sorter of the merge family applied to a slice value: for [nil] (of
    length 0) these functions return their argument itself, for any other
    argument a slice that is not nil. *)
Definition on_slice {S} (f : list A → M S (list A)) (s : slice A)
  : M S (slice A) :=
  let* r := f (elems s) in
  ret (match s with nil_slice => nil_slice | mk_slice _ => mk_slice r end).

(** func safeParallelQuickSort(arr []int), around the parallel sorter it
    calls. *)
Definition safeParallelQuickSort_around (sorter : M (World A) unit)
  : M (World A) unit :=
  recover_with tt (resetWorkerPool >> on_arr (quickSort key)) sorter.

Definition safeParallelQuickSort (numCPU : Z) : M (World A) unit :=
  safeParallelQuickSort_around (parallelQuickSort numCPU).

(** func safeParallelMergeSort(arr []int) []int, around the parallel sorter
    it calls. *)
Definition safeParallelMergeSort_around
    (sorter : slice A → M (World A) (slice A)) (arr : slice A)
  : M (World A) (slice A) :=
  recover_with nil_slice resetWorkerPool
    (let* result := sorter arr in
     match result with
     | nil_slice => on_slice (mergeSort key) arr
     | mk_slice _ => ret result
     end).

Definition safeParallelMergeSort (numCPU : Z) (arr : slice A)
  : M (World A) (slice A) :=
  safeParallelMergeSort_around (on_slice (parallelMergeSort numCPU)) arr.

End Parallel.

(** * Writing an array to a file (butils.go) *)

(** What writeDataToFile holds while it runs: the [strings.Builder] and the
    bytes it has handed to the [bufio.Writer], which reach the file in the
    same order. *)
Record Output : Type :=
  mkOutput { builder : list Byte.byte; writer : list Byte.byte }.

Section FileOutput.
(** [strconv.Itoa]. *)
Context (Itoa : Z → list Byte.byte).

(** [builder.WriteByte(c)] and [builder.WriteString(s)]. *)
Definition builder_WriteByte (c : Byte.byte) (o : Output) : Output :=
  mkOutput (builder o ++ [c]) (writer o).

Definition builder_WriteString (s : list Byte.byte) (o : Output) : Output :=
  mkOutput (builder o ++ s) (writer o).

(** [writer.WriteString(builder.String())]. *)
Definition writer_WriteString (o : Output) : Output :=
  mkOutput (builder o) (writer o ++ builder o).

(** [builder.Reset()]. *)
Definition builder_Reset (o : Output) : Output := mkOutput [] (writer o).

(** The loop [for i, num := range data { ... }] of writeDataToFile. *)
Fixpoint writeDataToFile_loop (i : Z) (data : list Z) (o : Output) : Output :=
  match data with
  | [] => o
  | num :: rest =>
      let o := if 0 <? i then builder_WriteByte Byte.x0a o else o in
      let o := builder_WriteString (Itoa num) o in
      let o := if i `rem` 10000 =? 0
               then builder_Reset (writer_WriteString o) else o in
      writeDataToFile_loop (i + 1) rest o
  end.

(** func writeDataToFile(data []int, filename string) error, once
    [os.Create] has succeeded: the bytes handed to the writer by the time of
    the final [writer.Flush()]. *)
Definition writeDataToFile (data : list Z) : list Byte.byte :=
  let o := writeDataToFile_loop 0 data (mkOutput [] []) in
  let o := if 0 <? len (builder o) then writer_WriteString o else o in
  writer o.

End FileOutput.

(** The texts [ls], one per line: a line feed between two of them, none at
    the end. *)
Fixpoint lines_of (ls : list (list Byte.byte)) : list Byte.byte :=
  match ls with
  | [] => []
  | [s] => s
  | s :: rest => s ++ Byte.x0a :: lines_of rest
  end.

(** * Vocabulary of the specification *)

Section Vocabulary.
Context {A : Type} (key : A → Z).

(** The order the sorters establish. *)
Definition key_le (x y : A) : Prop := key x ≤ key y.

(** [result[i] <= result[j]] for all positions [i < j]. *)
Definition ascending (l : list A) : Prop :=
  ∀ (i j : nat) (x y : A),
    (i < j)%nat → l !! i = Some x → l !! j = Some y → key x ≤ key y.

(** The elements with key [k], in the order in which they occur. *)
Definition with_key (k : Z) (l : list A) : list A :=
  filter (λ x, key x = k) l.

(** [out] is the stable sort of [l]. *)
Definition stable_sort_of (l out : list A) : Prop :=
  out ≡ₚ l ∧ StronglySorted key_le out ∧ ∀ k, with_key k out = with_key k l.

(** The postcondition of a sort of the segment [seg] between [before] and
    [after]. *)
Definition segment_sorted (before seg after : list A) : list A → Prop :=
  λ a, ∃ seg', a = before ++ seg' ++ after ∧ seg' ≡ₚ seg ∧
               StronglySorted key_le seg'.

(** What one pass of the outer loop of insertionSort does to the sorted
    prefix, held last element first: the new element goes behind the
    elements with a larger key. *)
Fixpoint insert_rev (x : A) (r : list A) : list A :=
  match r with
  | [] => [x]
  | y :: r' => if key y >? key x then y :: insert_rev x r' else x :: y :: r'
  end.

(** What insertionSort makes of a segment: [r] is the prefix done so far,
    last element first. *)
Fixpoint isort_from (r todo : list A) : list A :=
  match todo with
  | [] => rev r
  | x :: todo' => isort_from (insert_rev x r) todo'
  end.

Definition isort (l : list A) : list A := isort_from [] l.

(** What merge computes, as a function on lists. *)
Fixpoint merge_lists (l r : list A) {struct l} : list A :=
  match l with
  | [] => r
  | x :: l' =>
      (fix into (r : list A) : list A :=
         match r with
         | [] => l
         | y :: r' =>
             if key x <=? key y then x :: merge_lists l' r
             else y :: into r'
         end) r
  end.

End Vocabulary.

(** The array [a'] has the length of [a] and the same element at every
    position outside [low..high]. *)
Definition unchanged_outside {A} (low high : Z) (a a' : list A) : Prop :=
  length a' = length a ∧
  ∀ k : nat, Z.of_nat k < low ∨ high < Z.of_nat k → a' !! k = a !! k.

(** Every element of [a] at a position from [from] up to, but not
    including, [to] satisfies [P]. *)
Definition all_between {A} (P : A → Prop) (from to : Z) (a : list A) : Prop :=
  ∀ (k : nat) (x : A), from ≤ Z.of_nat k < to → a !! k = Some x → P x.

(** The elements of [a] at the positions [low..high], Go's
    [arr[low:high+1]]. *)
Definition range_of {A} (low high : Z) (a : list A) : list A :=
  take (Z.to_nat (high - low + 1)) (drop (Z.to_nat low) a).

(** Events that take or give back a slot of the pool. *)
Definition takes_slot (e : event) : bool :=
  match e with EvTryAcquire _ _ true => true | _ => false end.

Definition gives_slot (e : event) : bool :=
  match e with EvRelease => true | _ => false end.

(** A trace in which every successful acquisition is matched by one release
    that comes after the events of the task holding the slot. *)
Inductive paired : list event → Prop :=
| paired_nil : paired []
| paired_other e t :
    takes_slot e = false → gives_slot e = false → paired t → paired (e :: t)
| paired_slot low high held t :
    paired held → paired t →
    paired (EvTryAcquire low high true :: held ++ EvRelease :: t).

Definition count (f : event → bool) (t : list event) : nat :=
  length (filter (λ e, f e = true) t).

(** A computation that, when it ends, leaves the pool as it found it and
    adds a paired trace. *)
Definition balanced {A X} (m : M (World A) X) : Prop :=
  ∀ w r w', m w = (r, w') → r ≠ Hang →
    workerPool w' = workerPool w ∧
    ∃ t, trace w' = trace w ++ t ∧ paired t.

(** From an array that satisfies [P], the computation ends normally with a
    result and an array that satisfy [Q]. *)
Definition achieves {A X} (m : M (World A) X)
    (P : list A → Prop) (Q : X → list A → Prop) : Prop :=
  ∀ w, P (arr w) → ∃ x w', m w = (Done x, w') ∧ Q x (arr w').

(** The selects on the pool among the events: one for every goroutine a
    scheduler starts. *)
Definition is_select (e : event) : bool :=
  match e with EvTryAcquire _ _ _ => true | _ => false end.

(** Whatever its outcome, the computation adds at most [n] selects to the
    events. *)
Definition selects_at_most {A X} (n : Z) (m : M (World A) X) : Prop :=
  ∀ w r w', m w = (r, w') →
    ∃ t, trace w' = trace w ++ t ∧ Z.of_nat (count is_select t) ≤ n.

(** * Verification *)

(** ** Running monadic code *)

Lemma bind_done {S A B} (m : M S A) (k : A → M S B) s a s1 r :
  m s = (Done a, s1) → k a s1 = r → bind m k s = r.
Proof. unfold bind. by intros -> <-. Qed.

Lemma bind_panic {S A B} (m : M S A) (k : A → M S B) s s1 :
  m s = (Panic, s1) → bind m k s = (Panic, s1).
Proof. unfold bind. by intros ->. Qed.

(** [mstep tac] runs the first command of a sequence with the fact [tac]
    proves about it. *)
Ltac mstep tac := eapply bind_done; [ tac | cbv beta iota ].

Lemma len_app {A} (l1 l2 : list A) : len (l1 ++ l2) = len l1 + len l2.
Proof. unfold len. rewrite length_app. lia. Qed.

Lemma len_cons {A} (x : A) (l : list A) : len (x :: l) = 1 + len l.
Proof. unfold len. simpl. lia. Qed.

Lemma len_nil {A} : len (@nil A) = 0.
Proof. reflexivity. Qed.

Lemma len_nonneg {A} (l : list A) : 0 ≤ len l.
Proof. unfold len. lia. Qed.

Lemma to_nat_len {A} (l : list A) : Z.to_nat (len l) = length l.
Proof. unfold len. lia. Qed.

Ltac len_simpl :=
  repeat first [ rewrite len_app | rewrite len_cons | rewrite len_nil ].

(** ** Reads and writes at a known position *)

Section ArrayFacts.
Context {A : Type}.
Implicit Types (a l before seg after : list A) (x v : A) (i : Z).

Lemma index_at {S} a l1 x l2 i (s : S) :
  a = l1 ++ x :: l2 → i = len l1 → index a i s = (Done x, s).
Proof.
  intros -> ->. unfold index.
  assert ((0 <=? len l1) = true) as -> by (apply Z.leb_le, len_nonneg).
  by rewrite to_nat_len, list_lookup_middle.
Qed.

Lemma rd_at a l1 x l2 i :
  a = l1 ++ x :: l2 → i = len l1 → rd i a = (Done x, a).
Proof. intros. unfold rd. by eapply index_at. Qed.

Lemma wr_at a l1 x l2 i v :
  a = l1 ++ x :: l2 → i = len l1 → wr i v a = (Done tt, l1 ++ v :: l2).
Proof.
  intros -> ->. unfold wr.
  assert ((0 <=? len l1) && (len l1 <? len (l1 ++ x :: l2)) = true) as ->.
  { len_simpl. pose proof (len_nonneg l1). pose proof (len_nonneg l2).
    apply andb_true_iff. split; [apply Z.leb_le | apply Z.ltb_lt]; lia. }
  rewrite to_nat_len.
  by rewrite insert_app_r_alt, Nat.sub_diag by lia.
Qed.

(** Exchanging two different positions, the smaller one first. *)
Lemma swap_lt a l1 x l2 y l3 i j :
  a = l1 ++ x :: l2 ++ y :: l3 → i = len l1 → j = len l1 + 1 + len l2 →
  swap i j a = (Done tt, l1 ++ y :: l2 ++ x :: l3).
Proof.
  intros -> -> ->. unfold swap.
  mstep ltac:(apply (rd_at _ (l1 ++ x :: l2) y l3);
              [by rewrite <- ?app_assoc | len_simpl; lia]).
  mstep ltac:(by apply (rd_at _ l1 x (l2 ++ y :: l3))).
  mstep ltac:(by apply (wr_at _ l1 x (l2 ++ y :: l3))).
  rewrite (wr_at _ (l1 ++ y :: l2) y l3 _ x);
    [by rewrite <- ?app_assoc | by rewrite <- ?app_assoc | len_simpl; lia].
Qed.

(** The same, with the larger position named first. *)
Lemma swap_gt a l1 x l2 y l3 i j :
  a = l1 ++ x :: l2 ++ y :: l3 → i = len l1 → j = len l1 + 1 + len l2 →
  swap j i a = (Done tt, l1 ++ y :: l2 ++ x :: l3).
Proof.
  intros -> -> ->. unfold swap.
  mstep ltac:(by apply (rd_at _ l1 x (l2 ++ y :: l3))).
  mstep ltac:(apply (rd_at _ (l1 ++ x :: l2) y l3);
              [by rewrite <- ?app_assoc | len_simpl; lia]).
  mstep ltac:(apply (wr_at _ (l1 ++ x :: l2) y l3);
              [by rewrite <- ?app_assoc | len_simpl; lia]).
  rewrite (wr_at _ l1 x (l2 ++ x :: l3) _ y);
    [by rewrite <- ?app_assoc | by rewrite <- ?app_assoc | done].
Qed.

(** Exchanging a position with itself changes nothing. *)
Lemma swap_same a l1 x l2 i j :
  a = l1 ++ x :: l2 → i = len l1 → j = len l1 → swap i j a = (Done tt, a).
Proof.
  intros -> -> ->. unfold swap.
  mstep ltac:(by apply (rd_at _ l1 x l2)).
  mstep ltac:(by apply (rd_at _ l1 x l2)).
  mstep ltac:(by apply (wr_at _ l1 x l2)).
  by apply (wr_at _ l1 x l2).
Qed.

(** Every position of a list splits it. *)
Lemma split_at a (n : nat) :
  (n < length a)%nat → ∃ l1 x l2, a = l1 ++ x :: l2 ∧ length l1 = n.
Proof.
  intros Hn. destruct (lookup_lt_is_Some_2 a n Hn) as [x Hx].
  exists (take n a), x, (drop (S n) a). split.
  - by rewrite take_drop_middle.
  - rewrite length_take. lia.
Qed.

End ArrayFacts.

Ltac list_norm := repeat (rewrite <- ?app_assoc; simpl).

Ltac len_solve :=
  unfold len in *;
  repeat rewrite ?length_app, ?length_cons, ?length_nil in *;
  lia.

(** Decide a comparison of positions in the goal from the lengths. *)
Ltac decide_ltb :=
  match goal with
  | |- context [?a <? ?b] =>
      first [ assert ((a <? b) = true) as -> by (apply Z.ltb_lt; len_solve)
            | assert ((a <? b) = false) as -> by (apply Z.ltb_ge; len_solve) ]
  end.

Ltac decide_leb :=
  rewrite ?Z.geb_leb;
  match goal with
  | |- context [?a <=? ?b] =>
      first [ assert ((a <=? b) = true) as -> by (apply Z.leb_le; len_solve)
            | assert ((a <=? b) = false) as -> by (apply Z.leb_gt; len_solve) ]
  end.

(** ** The in-place sequential sorter *)

Section SequentialFacts.
Context {A : Type} (key : A → Z).
Implicit Types (a l before seg after : list A) (x v : A).

(** An exchange of two positions of a segment permutes the segment and
    leaves the rest of the array alone. *)
Lemma swap_in_segment before seg after i j :
  len before ≤ i < len before + len seg →
  len before ≤ j < len before + len seg →
  ∃ seg', swap i j (before ++ seg ++ after)
            = (Done tt, before ++ seg' ++ after) ∧ seg' ≡ₚ seg.
Proof.
  intros Hi Hj.
  assert (∀ i j, len before ≤ i < len before + len seg → i < j →
            j < len before + len seg →
            ∃ s1 vx s2 vy s3, seg = s1 ++ vx :: s2 ++ vy :: s3 ∧
              i = len (before ++ s1) ∧ j = len (before ++ s1) + 1 + len s2)
    as Hsplit.
  { clear. intros i j Hi Hij Hj.
    destruct (split_at seg (Z.to_nat (i - len before)))
      as (s1 & vx & r & -> & Hs1); [len_solve|].
    destruct (split_at r (Z.to_nat (j - i - 1)))
      as (s2 & vy & s3 & -> & Hs2); [len_solve|].
    exists s1, vx, s2, vy, s3. split; [done|]. len_solve. }
  destruct (Z.lt_trichotomy i j) as [Hlt | [<- | Hgt]].
  - destruct (Hsplit i j) as (s1 & vx & s2 & vy & s3 & -> & Hi' & Hj');
      [lia..|].
    exists (s1 ++ vy :: s2 ++ vx :: s3). split; [|solve_Permutation].
    rewrite (swap_lt _ (before ++ s1) vx s2 vy (s3 ++ after));
      [by list_norm | by list_norm | done | done].
  - destruct (split_at seg (Z.to_nat (i - len before)))
      as (s1 & vx & r & -> & Hs1); [len_solve|].
    exists (s1 ++ vx :: r). split; [|done].
    apply (swap_same _ (before ++ s1) vx (r ++ after));
      [by list_norm | len_solve | len_solve].
  - destruct (Hsplit j i) as (s1 & vx & s2 & vy & s3 & -> & Hj' & Hi');
      [lia..|].
    exists (s1 ++ vy :: s2 ++ vx :: s3). split; [|solve_Permutation].
    rewrite (swap_gt _ (before ++ s1) vx s2 vy (s3 ++ after));
      [by list_norm | by list_norm | done | done].
Qed.

(** A read inside a segment succeeds and changes nothing. *)
Lemma rd_in_segment before seg after i :
  len before ≤ i < len before + len seg →
  ∃ v, rd i (before ++ seg ++ after) = (Done v, before ++ seg ++ after).
Proof.
  intros Hi.
  destruct (split_at seg (Z.to_nat (i - len before)))
    as (s1 & v & r & -> & Hs1); [len_solve|].
  exists v. apply (rd_at _ (before ++ s1) v (r ++ after));
    [by list_norm | len_solve].
Qed.

(** medianOfThree on three positions of a segment permutes the segment. *)
Lemma medianOfThree_in_segment before seg after ia ib ic :
  len before ≤ ia < len before + len seg →
  len before ≤ ib < len before + len seg →
  len before ≤ ic < len before + len seg →
  ∃ seg', medianOfThree key ia ib ic (before ++ seg ++ after)
            = (Done tt, before ++ seg' ++ after) ∧ seg' ≡ₚ seg.
Proof.
  intros Ha Hb Hc. unfold medianOfThree.
  assert (∀ seg0 (b : bool) i j,
            len before ≤ i < len before + len seg0 →
            len before ≤ j < len before + len seg0 →
            ∃ seg', when b (swap i j) (before ++ seg0 ++ after)
                      = (Done tt, before ++ seg' ++ after) ∧ seg' ≡ₚ seg0)
    as Hwhen.
  { intros seg0 [] i j Hi Hj; simpl.
    - by apply swap_in_segment.
    - by exists seg0. }
  assert (∀ seg1, seg1 ≡ₚ seg → len seg1 = len seg) as Hlen.
  { intros seg1 Hp. unfold len. by rewrite Hp. }
  destruct (rd_in_segment before seg after ia Ha) as [va Hva].
  destruct (rd_in_segment before seg after ib Hb) as [vb Hvb].
  destruct (Hwhen seg (key va >? key vb) ia ib) as (seg1 & Hrun1 & Hp1);
    [done..|].
  pose proof (Hlen _ Hp1) as Hl1.
  destruct (rd_in_segment before seg1 after ib) as [vb1 Hvb1]; [lia|].
  destruct (rd_in_segment before seg1 after ic) as [vc1 Hvc1]; [lia|].
  destruct (Hwhen seg1 (key vb1 >? key vc1) ib ic) as (seg2 & Hrun2 & Hp2);
    [lia..|].
  assert (seg2 ≡ₚ seg) as Hp2' by (by rewrite Hp2).
  pose proof (Hlen _ Hp2') as Hl2.
  destruct (rd_in_segment before seg2 after ia) as [va2 Hva2]; [lia|].
  destruct (rd_in_segment before seg2 after ib) as [vb2 Hvb2]; [lia|].
  destruct (Hwhen seg2 (key va2 >? key vb2) ia ib) as (seg3 & Hrun3 & Hp3);
    [lia..|].
  assert (seg3 ≡ₚ seg) as Hp3' by (by rewrite Hp3).
  pose proof (Hlen _ Hp3') as Hl3.
  destruct (swap_in_segment before seg3 after ia ib) as (seg4 & Hrun4 & Hp4);
    [lia..|].
  exists seg4. split; [|by rewrite Hp4].
  mstep ltac:(exact Hva). mstep ltac:(exact Hvb). mstep ltac:(exact Hrun1).
  mstep ltac:(exact Hvb1). mstep ltac:(exact Hvc1). mstep ltac:(exact Hrun2).
  mstep ltac:(exact Hva2). mstep ltac:(exact Hvb2). mstep ltac:(exact Hrun3).
  exact Hrun4.
Qed.

Lemma snoc_cases l : l = [] ∨ ∃ l' x, l = l' ++ [x].
Proof.
  induction l as [|x l' _] using rev_ind; [by left | right; eauto].
Qed.

(** The invariant of the loop of partition3Way: the segment is
    [L ++ E ++ U ++ G] with [L] below the pivot, [E] equal to it, [G]
    above it and [U] still to be looked at; [lt], [i] and [gt] are the
    positions where [E], [U] and [G] start. *)
Lemma partition3Way_loop_spec fuel p before after :
  ∀ U L E G lt i gt,
    (length U ≤ fuel)%nat → E ≠ [] →
    Forall (λ x, key x < key p) L →
    Forall (λ x, key x = key p) E →
    Forall (λ x, key p < key x) G →
    lt = len before + len L → i = lt + len E → gt = i + len U →
    ∃ L' E' G',
      partition3Way_loop key fuel p lt i gt
        (before ++ L ++ E ++ U ++ G ++ after)
      = (Done (len before + len L', len before + len L' + len E' - 1),
         before ++ L' ++ E' ++ G' ++ after) ∧
      E' ≠ [] ∧
      Forall (λ x, key x < key p) L' ∧
      Forall (λ x, key x = key p) E' ∧
      Forall (λ x, key p < key x) G' ∧
      L' ++ E' ++ G' ≡ₚ L ++ E ++ U ++ G.
Proof.
  induction fuel as [|fuel IH]; intros U L E G lt i gt Hfuel HE HL HEq HG
    -> -> ->.
  - destruct U; [|simpl in Hfuel; lia].
    exists L, E, G. cbn [partition3Way_loop]. decide_ltb.
    split_and!; try done. unfold ret. do 3 f_equal. len_solve.
  - destruct U as [|u U'].
    { exists L, E, G. cbn [partition3Way_loop]. decide_ltb.
      split_and!; try done. unfold ret. do 3 f_equal. len_solve. }
    cbn [partition3Way_loop]. decide_ltb.
    pose proof (rd_at (before ++ L ++ E ++ (u :: U') ++ G ++ after)
                  (before ++ L ++ E) u (U' ++ G ++ after)
                  (len before + len L + len E)) as Hrd.
    destruct (Z.ltb_spec (key u) (key p)) as [Hlt | Hge].
    + (* arr[i] < pivot *)
      destruct E as [|e E']; [done|].
      destruct (IH U' (L ++ [u]) (E' ++ [e]) G
                  (len before + len L + 1)
                  (len before + len L + len (e :: E') + 1)
                  (len before + len L + len (e :: E') + len (u :: U')))
        as (L' & E'' & G' & Hrun & HE' & HL' & HEq' & HG' & Hperm).
      { simpl in Hfuel. lia. }
      { by destruct E'. }
      { rewrite Forall_app, Forall_singleton. done. }
      { apply Forall_cons in HEq as [? ?].
        rewrite Forall_app, Forall_singleton. done. }
      { done. }
      { len_solve. } { len_solve. } { len_solve. }
      exists L', E'', G'.
      split; [|split_and!; try done; rewrite Hperm; solve_Permutation].
      mstep ltac:(apply Hrd; [by list_norm | len_solve]).
      rewrite (proj2 (Z.ltb_lt _ _) Hlt).
      mstep ltac:(apply (swap_lt _ (before ++ L) e E' u (U' ++ G ++ after));
                  [by list_norm | len_solve | len_solve]).
      etrans; [|exact Hrun]. f_equal; by list_norm.
    + destruct (Z.ltb_spec (key p) (key u)) as [Hgt | Hle].
      * (* arr[i] > pivot *)
        destruct (snoc_cases U') as [-> | (U'' & v & ->)].
        -- destruct (IH [] L E (u :: G)
                       (len before + len L)
                       (len before + len L + len E)
                       (len before + len L + len E + len [u] - 1))
             as (L' & E' & G' & Hrun & HE' & HL' & HEq' & HG' & Hperm);
             [simpl; lia | done | done | done | by apply Forall_cons
             | done | done | len_solve | ].
           exists L', E', G'.
           split; [|split_and!; try done; rewrite Hperm; solve_Permutation].
           mstep ltac:(apply Hrd; [by list_norm | len_solve]).
           rewrite (proj2 (Z.ltb_ge _ _) Hge).
           mstep ltac:(apply Hrd; [by list_norm | len_solve]).
           rewrite Z.gtb_ltb, (proj2 (Z.ltb_lt _ _) Hgt).
           mstep ltac:(apply (swap_same _ (before ++ L ++ E) u
                                (G ++ after));
                       [by list_norm | len_solve | len_solve]).
           etrans; [|exact Hrun]. f_equal; by list_norm.
        -- destruct (IH (v :: U'') L E (u :: G)
                       (len before + len L)
                       (len before + len L + len E)
                       (len before + len L + len E
                        + len (u :: U'' ++ [v]) - 1))
             as (L' & E' & G' & Hrun & HE' & HL' & HEq' & HG' & Hperm);
             [ | done | done | done | by apply Forall_cons
             | done | done | len_solve | ].
           { simpl in Hfuel. rewrite length_app in Hfuel. simpl in *. lia. }
           exists L', E', G'.
           split; [|split_and!; try done; rewrite Hperm; solve_Permutation].
           mstep ltac:(apply Hrd; [by list_norm | len_solve]).
           rewrite (proj2 (Z.ltb_ge _ _) Hge).
           mstep ltac:(apply Hrd; [by list_norm | len_solve]).
           rewrite Z.gtb_ltb, (proj2 (Z.ltb_lt _ _) Hgt).
           mstep ltac:(apply (swap_lt _ (before ++ L ++ E) u U'' v
                                (G ++ after));
                       [by list_norm | len_solve | len_solve]).
           etrans; [|exact Hrun]. f_equal; by list_norm.
      * (* arr[i] == pivot *)
        destruct (IH U' L (E ++ [u]) G
                    (len before + len L)
                    (len before + len L + len E + 1)
                    (len before + len L + len E + len (u :: U')))
          as (L' & E' & G' & Hrun & HE' & HL' & HEq' & HG' & Hperm);
          [ simpl in Hfuel; lia | by destruct E | done | | done
          | done | len_solve | len_solve | ].
        { rewrite Forall_app, Forall_singleton. split; [done | lia]. }
        exists L', E', G'.
        split; [|split_and!; try done; rewrite Hperm; solve_Permutation].
        mstep ltac:(apply Hrd; [by list_norm | len_solve]).
        rewrite (proj2 (Z.ltb_ge _ _) Hge).
        mstep ltac:(apply Hrd; [by list_norm | len_solve]).
        rewrite Z.gtb_ltb, (proj2 (Z.ltb_ge _ _) Hle).
        etrans; [|exact Hrun]. f_equal; by list_norm.
Qed.

Lemma midpoint_bounds (low high : Z) :
  0 ≤ low → low ≤ high → low ≤ (low + high) `quot` 2 ≤ high.
Proof.
  intros. rewrite Z.quot_div_nonneg by lia.
  split; [apply Z.div_le_lower_bound | apply Z.div_le_upper_bound]; lia.
Qed.

(** partition3Way on a non-empty segment [low..high]: the segment becomes
    [L ++ E ++ G] around a pivot value, [E] is not empty, and the result
    is the first and the last position of [E]. *)
Lemma partition3Way_spec before seg after low high :
  low = len before → high = low + len seg - 1 → seg ≠ [] →
  ∃ p L E G,
    partition3Way key low high (before ++ seg ++ after)
    = (Done (low + len L, low + len L + len E - 1),
       before ++ L ++ E ++ G ++ after) ∧
    E ≠ [] ∧
    Forall (λ x, key x < key p) L ∧
    Forall (λ x, key x = key p) E ∧
    Forall (λ x, key p < key x) G ∧
    L ++ E ++ G ≡ₚ seg.
Proof.
  intros -> -> Hne.
  assert (0 < len seg) as Hpos by (destruct seg; [done | len_solve]).
  pose proof (len_nonneg before) as Hb.
  pose proof (midpoint_bounds (len before) (len before + len seg - 1)) as Hm.
  destruct (medianOfThree_in_segment before seg after (len before)
              ((len before + (len before + len seg - 1)) `quot` 2)
              (len before + len seg - 1))
    as (seg1 & Hmed & Hp1); [lia..|].
  destruct seg1 as [|p U].
  { apply Permutation_nil_l in Hp1. by subst. }
  assert (length seg = S (length U)) as Hlen by (by rewrite <- Hp1).
  destruct (partition3Way_loop_spec
              (Z.to_nat (len before + len seg - 1 - len before))
              p before after U [] [p] []
              (len before) (len before + 1) (len before + len seg - 1 + 1))
    as (L & E & G & Hrun & HE & HL & HEq & HG & Hperm);
    [len_solve | done | done | by apply Forall_singleton | done
    | len_solve | len_solve | len_solve | ].
  exists p, L, E, G. split; [|split_and!; try done].
  - unfold partition3Way. mstep ltac:(exact Hmed).
    mstep ltac:(by apply (rd_at _ before p (U ++ after))).
    etrans; [|exact Hrun]. f_equal; by list_norm.
  - rewrite Hperm. simpl. by rewrite app_nil_r.
Qed.

(** *** Insertion sort *)

Lemma length_insert_rev x r : length (insert_rev key x r) = S (length r).
Proof.
  induction r as [|y r IH]; simpl; [done|].
  destruct (key y >? key x); simpl; by rewrite ?IH.
Qed.

(** The inner loop, followed by the assignment that closes the gap.  The
    gap is at position [j+1] and holds a stale value [h]. *)
Lemma insertionSort_shift_spec cur before rest low :
  low = len before →
  ∀ r fuel h above j,
    (length r ≤ fuel)%nat → j = low + len r - 1 →
    ∃ j' a',
      insertionSort_shift key fuel low cur j
        (before ++ rev r ++ h :: above ++ rest) = (Done j', a') ∧
      wr (j' + 1) cur a'
      = (Done tt, before ++ rev (insert_rev key cur r) ++ above ++ rest).
Proof.
  intros ->. induction r as [|y r IH]; intros fuel h above j Hfuel ->.
  - exists (len before + len (@nil A) - 1), (before ++ h :: above ++ rest).
    split.
    + destruct fuel; cbn [insertionSort_shift]; by decide_leb.
    + apply (wr_at _ before h (above ++ rest)); [done | len_solve].
  - destruct fuel as [|fuel]; [simpl in Hfuel; lia|].
    pose proof (rd_at (before ++ rev (y :: r) ++ h :: above ++ rest)
                  (before ++ rev r) y (h :: above ++ rest)
                  (len before + len (y :: r) - 1)) as Hrd.
    assert (len (rev r) = len r) as Hrev by (unfold len; by rewrite length_rev).
    destruct (Z.ltb_spec (key cur) (key y)) as [Hgt | Hle].
    + destruct (IH fuel y (y :: above) (len before + len (y :: r) - 1 - 1))
        as (j' & a' & Hrun & Hwr); [simpl in Hfuel; lia | len_solve |].
      exists j', a'. split.
      * cbn [insertionSort_shift]. decide_leb.
        mstep ltac:(apply Hrd; [by list_norm | len_solve]).
        rewrite Z.gtb_ltb, (proj2 (Z.ltb_lt _ _) Hgt).
        mstep ltac:(apply Hrd; [by list_norm | len_solve]).
        mstep ltac:(apply (wr_at _ (before ++ rev r ++ [y]) h (above ++ rest));
                    [by list_norm | len_solve]).
        etrans; [|exact Hrun]. f_equal; by list_norm.
      * rewrite Hwr. simpl. rewrite Z.gtb_ltb, (proj2 (Z.ltb_lt _ _) Hgt).
        simpl. by list_norm.
    + exists (len before + len (y :: r) - 1),
             (before ++ rev (y :: r) ++ h :: above ++ rest).
      split.
      * cbn [insertionSort_shift]. decide_leb.
        mstep ltac:(apply Hrd; [by list_norm | len_solve]).
        by rewrite Z.gtb_ltb, (proj2 (Z.ltb_ge _ _) Hle).
      * rewrite (wr_at _ (before ++ rev (y :: r)) h (above ++ rest) _ cur);
          [ | by list_norm | simpl; len_solve].
        simpl. rewrite Z.gtb_ltb, (proj2 (Z.ltb_ge _ _) Hle).
        simpl. by list_norm.
Qed.

Lemma insertionSort_loop_spec before after low :
  low = len before →
  ∀ todo fuel done_ high i,
    (length todo ≤ fuel)%nat →
    i = low + len done_ → high = i + len todo - 1 →
    insertionSort_loop key fuel low high i (before ++ done_ ++ todo ++ after)
    = (Done tt, before ++ isort_from key (rev done_) todo ++ after).
Proof.
  intros ->. induction todo as [|x todo IH];
    intros fuel done_ high i Hfuel -> ->.
  - destruct fuel; cbn [insertionSort_loop]; decide_leb;
      simpl; by rewrite rev_involutive.
  - destruct fuel as [|fuel]; [simpl in Hfuel; lia|].
    cbn [insertionSort_loop]. decide_leb.
    mstep ltac:(apply (rd_at _ (before ++ done_) x (todo ++ after));
                [by list_norm | len_solve]).
    destruct (insertionSort_shift_spec x before (todo ++ after) (len before)
                eq_refl (rev done_)
                (Z.to_nat (len before + len done_ - len before)) x []
                (len before + len done_ - 1))
      as (j' & a' & Hrun & Hwr).
    { rewrite length_rev. len_solve. }
    { unfold len. rewrite length_rev. lia. }
    rewrite rev_involutive in Hrun.
    mstep ltac:(exact Hrun). mstep ltac:(exact Hwr).
    rewrite (IH fuel (rev (insert_rev key x (rev done_))));
      [ | simpl in Hfuel; lia | | ].
    + by rewrite rev_involutive.
    + unfold len. rewrite length_rev, length_insert_rev, length_rev. lia.
    + unfold len.
      rewrite ?length_rev, ?length_insert_rev, ?length_rev. cbn [length]. lia.
Qed.

(** insertionSort on the segment [low..high] of the array. *)
Lemma insertionSort_spec before seg after low high :
  low = len before → high = low + len seg - 1 →
  insertionSort key low high (before ++ seg ++ after)
  = (Done tt, before ++ isort key seg ++ after).
Proof.
  intros -> ->. unfold insertionSort. destruct seg as [|x seg].
  - destruct (Z.to_nat _); cbn [insertionSort_loop]; by decide_leb.
  - rewrite (insertionSort_loop_spec before after (len before) eq_refl
               seg _ [x]); [done | len_solve | len_solve | len_solve].
Qed.

Lemma insert_rev_Permutation x r : insert_rev key x r ≡ₚ x :: r.
Proof.
  induction r as [|y r IH]; simpl; [done|].
  destruct (key y >? key x); [|done].
  by rewrite IH, Permutation_swap.
Qed.

Lemma isort_from_Permutation r todo : isort_from key r todo ≡ₚ rev r ++ todo.
Proof.
  revert r. induction todo as [|x todo IH]; intros r; simpl.
  - by rewrite app_nil_r.
  - rewrite IH, <- !Permutation_rev, insert_rev_Permutation.
    solve_Permutation.
Qed.

Lemma isort_Permutation l : isort key l ≡ₚ l.
Proof. unfold isort. by rewrite isort_from_Permutation. Qed.

(** Sortedness is kept for the reversed prefix: [rev r] is ascending. *)
Lemma insert_rev_sorted x r :
  StronglySorted (key_le key) (rev r) →
  StronglySorted (key_le key) (rev (insert_rev key x r)).
Proof.
  induction r as [|y r IH]; simpl; intros Hs.
  - repeat constructor.
  - destruct (Z.ltb_spec (key x) (key y)) as [Hlt | Hle];
      rewrite Z.gtb_ltb, ?(proj2 (Z.ltb_lt _ _) Hlt), ?(proj2 (Z.ltb_ge _ _) Hle);
      simpl.
    + apply StronglySorted_app in Hs as (Hall & Hr & _).
      apply StronglySorted_app. split_and!.
      * intros x1 x2 Hx1 ->%list_elem_of_singleton.
        rewrite <- Permutation_rev, insert_rev_Permutation in Hx1.
        apply elem_of_cons in Hx1 as [-> | Hx1]; [unfold key_le; lia|].
        apply Hall;
          [by rewrite <- Permutation_rev | by apply list_elem_of_singleton].
      * by apply IH.
      * repeat constructor.
    + apply StronglySorted_app. split_and!; [|done|repeat constructor].
      intros x1 x2 Hx1 ->%list_elem_of_singleton.
      apply elem_of_app in Hx1 as [Hx1 | ->%list_elem_of_singleton];
        [|done].
      apply StronglySorted_app in Hs as (Hall & _ & _).
      specialize (Hall x1 y Hx1). unfold key_le in *.
      etrans; [apply Hall; by apply list_elem_of_singleton | done].
Qed.

Lemma isort_from_sorted r todo :
  StronglySorted (key_le key) (rev r) →
  StronglySorted (key_le key) (isort_from key r todo).
Proof.
  revert r. induction todo as [|x todo IH]; intros r Hs; simpl; [done|].
  by apply IH, insert_rev_sorted.
Qed.

Lemma isort_sorted l : StronglySorted (key_le key) (isort key l).
Proof. apply isort_from_sorted. constructor. Qed.

(** *** Quicksort *)

Lemma sorted_short l : (length l ≤ 1)%nat → StronglySorted (key_le key) l.
Proof.
  destruct l as [|x [|y l]]; simpl; intros; [repeat constructor..|lia].
Qed.

Lemma sorted_equal_keys p l :
  Forall (λ x, key x = key p) l → StronglySorted (key_le key) l.
Proof.
  induction 1 as [|x l Hx Hl IH]; constructor; [done|].
  eapply Forall_impl; [exact Hl|]. intros y Hy. unfold key_le. simpl in *. lia.
Qed.

(** Three sorted zones around a pivot make a sorted segment. *)
Lemma sorted_zones p L E G :
  Forall (λ x, key x < key p) L →
  Forall (λ x, key x = key p) E →
  Forall (λ x, key p < key x) G →
  StronglySorted (key_le key) L → StronglySorted (key_le key) G →
  StronglySorted (key_le key) (L ++ E ++ G).
Proof.
  intros HL HE HG HsL HsG. pose proof (sorted_equal_keys _ _ HE) as HsE.
  rewrite Forall_forall in HL, HE, HG.
  apply StronglySorted_app. split_and!; [|done|].
  - intros x y Hx [Hy | Hy]%elem_of_app; unfold key_le;
      specialize (HL _ Hx); [specialize (HE _ Hy) | specialize (HG _ Hy)];
      simpl in *; lia.
  - apply StronglySorted_app. split_and!; [|done|done].
    intros x y Hx Hy. specialize (HE _ Hx). specialize (HG _ Hy).
    unfold key_le. simpl in *. lia.
Qed.

(** quickSortHelper sorts the segment [low..high] and touches nothing
    else. *)
Lemma quickSortHelper_fuel_spec fuel :
  ∀ before seg after low high,
    (length seg ≤ fuel)%nat → low = len before → high = low + len seg - 1 →
    ∃ seg',
      quickSortHelper_fuel key fuel low high (before ++ seg ++ after)
      = (Done tt, before ++ seg' ++ after) ∧
      seg' ≡ₚ seg ∧ StronglySorted (key_le key) seg'.
Proof.
  induction fuel as [|fuel IH]; intros before seg after low high Hfuel -> ->.
  { destruct seg; [|simpl in Hfuel; lia].
    exists []. cbn [quickSortHelper_fuel]. decide_ltb.
    split_and!; [done | done | constructor]. }
  cbn [quickSortHelper_fuel].
  destruct (Z.ltb_spec (len before) (len before + len seg - 1)) as [Hlt | Hge].
  2: { exists seg. split_and!; [done | done |].
       apply sorted_short. len_solve. }
  destruct (Z.leb_spec (len before + len seg - 1 - len before + 1) 16)
    as [Hsmall | Hbig].
  { exists (isort key seg). split_and!.
    - by apply insertionSort_spec.
    - apply isort_Permutation.
    - apply isort_sorted. }
  destruct (partition3Way_spec before seg after (len before)
              (len before + len seg - 1))
    as (p & L & E & G & Hpart & HE & HL & HEq & HG & Hperm);
    [done | done | destruct seg; [len_solve | done] |].
  assert (length L + length E + length G = length seg)%nat as Hlen.
  { rewrite <- Hperm, !length_app. lia. }
  assert (0 < length E)%nat as HlenE by (destruct E; [done | simpl; lia]).
  destruct (Z.ltb_spec (len before + len L - len before)
              (len before + len seg - 1 - (len before + len L + len E - 1)))
    as [Hleft | Hright].
  - (* the left zone by the call, the right zone by the next iteration *)
    destruct (IH before L (E ++ G ++ after) (len before)
                (len before + len L - 1)) as (L' & HrunL & HpL & HsL);
      [lia | done | lia |].
    destruct (IH (before ++ L' ++ E) G after
                (len before + len L + len E - 1 + 1)
                (len before + len seg - 1)) as (G' & HrunG & HpG & HsG);
      [lia | | len_solve |].
    { len_simpl. unfold len. rewrite HpL. lia. }
    exists (L' ++ E ++ G'). split_and!.
    + mstep ltac:(exact Hpart). rewrite (proj2 (Z.ltb_lt _ _) Hleft).
      mstep ltac:(exact HrunL).
      etrans; [|etrans; [exact HrunG|]]; f_equal; by list_norm.
    + by rewrite HpL, HpG.
    + apply (sorted_zones p); try done; [by rewrite HpL | by rewrite HpG].
  - (* the right zone by the call, the left zone by the next iteration *)
    destruct (IH (before ++ L ++ E) G after
                (len before + len L + len E - 1 + 1)
                (len before + len seg - 1)) as (G' & HrunG & HpG & HsG);
      [lia | len_solve | len_solve |].
    destruct (IH before L (E ++ G' ++ after) (len before)
                (len before + len L - 1)) as (L' & HrunL & HpL & HsL);
      [lia | done | lia |].
    exists (L' ++ E ++ G'). split_and!.
    + mstep ltac:(exact Hpart). rewrite (proj2 (Z.ltb_ge _ _) Hright).
      mstep ltac:(etrans; [|exact HrunG]; f_equal; by list_norm).
      etrans; [|etrans; [exact HrunL|]]; f_equal; by list_norm.
    + by rewrite HpL, HpG.
    + apply (sorted_zones p); try done; [by rewrite HpL | by rewrite HpG].
Qed.

Lemma quickSortHelper_spec before seg after low high :
  low = len before → high = low + len seg - 1 →
  ∃ seg',
    quickSortHelper key low high (before ++ seg ++ after)
    = (Done tt, before ++ seg' ++ after) ∧
    seg' ≡ₚ seg ∧ StronglySorted (key_le key) seg'.
Proof.
  intros -> ->. apply quickSortHelper_fuel_spec; [len_solve | done..].
Qed.

Lemma quickSort_spec a :
  ∃ a', quickSort key a = (Done tt, a') ∧
        a' ≡ₚ a ∧ StronglySorted (key_le key) a'.
Proof.
  unfold quickSort. destruct (Z.ltb_spec (len a) 2) as [Hshort | Hlong].
  - exists a. split_and!; [done | done | apply sorted_short; len_solve].
  - destruct (quickSortHelper_spec [] a [] 0 (len a - 1))
      as (a' & Hrun & Hp & Hs); [done | len_solve |].
    exists a'. simpl in Hrun. by rewrite !app_nil_r in Hrun.
Qed.

(** *** Merge sort *)

Lemma merge_lists_nil_r l : merge_lists key l [] = l.
Proof. by destruct l. Qed.

Lemma merge_lists_cons x l y r :
  merge_lists key (x :: l) (y :: r)
  = if key x <=? key y then x :: merge_lists key l (y :: r)
    else y :: merge_lists key (x :: l) r.
Proof. reflexivity. Qed.

Lemma merge_loop_spec {S} (s : S) fuel :
  ∀ l r ldone rdone result,
    (length l + length r ≤ fuel)%nat →
    ∃ i j res,
      merge_loop key fuel (ldone ++ l) (rdone ++ r) (len ldone) (len rdone)
        result s = (Done (i, j, res), s) ∧
      (let res1 :=
         if i <? len (ldone ++ l)
         then res ++ drop (Z.to_nat i) (ldone ++ l) else res in
       if j <? len (rdone ++ r)
       then res1 ++ drop (Z.to_nat j) (rdone ++ r) else res1)
      = result ++ merge_lists key l r.
Proof.
  induction fuel as [|fuel IH]; intros l r ldone rdone result Hfuel.
  - destruct l, r; try (simpl in Hfuel; lia).
    exists (len ldone), (len rdone), result.
    cbn [merge_loop]. rewrite !app_nil_r, !Z.ltb_irrefl. simpl.
    by rewrite ?app_nil_r.
  - destruct l as [|x l].
    { exists (len ldone), (len rdone), result.
      cbn [merge_loop]. rewrite !app_nil_r, !Z.ltb_irrefl. cbn [andb].
      split; [done|]. simpl merge_lists. destruct r as [|y r].
      - by rewrite app_nil_r, Z.ltb_irrefl, app_nil_r.
      - decide_ltb. by rewrite to_nat_len, drop_app_length. }
    destruct r as [|y r].
    { exists (len ldone), (len rdone), result.
      cbn [merge_loop]. rewrite !app_nil_r, !Z.ltb_irrefl, andb_false_r.
      split; [done|]. rewrite merge_lists_nil_r. decide_ltb.
      by rewrite to_nat_len, drop_app_length. }
    cbn [merge_loop]. rewrite merge_lists_cons.
    destruct (Z.leb_spec (key x) (key y)) as [Hle | Hgt].
    + destruct (IH l (y :: r) (ldone ++ [x]) rdone (result ++ [x]))
        as (i & j & res & Hrun & Hfin); [simpl in *; lia|].
      exists i, j, res. repeat rewrite <- app_assoc in Hrun.
      repeat rewrite <- app_assoc in Hfin.
      split; [|exact Hfin].
      do 2 decide_ltb. cbn [andb].
      mstep ltac:(by apply (index_at _ ldone x l)).
      mstep ltac:(by apply (index_at _ rdone y r)).
      rewrite (proj2 (Z.leb_le _ _) Hle).
      etrans; [|exact Hrun]. f_equal. len_solve.
    + destruct (IH (x :: l) r ldone (rdone ++ [y]) (result ++ [y]))
        as (i & j & res & Hrun & Hfin); [simpl in *; lia|].
      exists i, j, res. repeat rewrite <- app_assoc in Hrun.
      repeat rewrite <- app_assoc in Hfin.
      split; [|exact Hfin].
      do 2 decide_ltb. cbn [andb].
      mstep ltac:(by apply (index_at _ ldone x l)).
      mstep ltac:(by apply (index_at _ rdone y r)).
      rewrite (proj2 (Z.leb_gt _ _) Hgt).
      etrans; [|exact Hrun]. f_equal. len_solve.
Qed.

Lemma merge_spec {S} (s : S) l r :
  merge key l r s = (Done (merge_lists key l r), s).
Proof.
  unfold merge.
  destruct (merge_loop_spec s (length l + length r) l r [] [] [])
    as (i & j & res & Hrun & Hfin); [done|].
  simpl in Hrun, Hfin. mstep ltac:(exact Hrun). unfold ret. by rewrite Hfin.
Qed.

Lemma merge_lists_Permutation l r : merge_lists key l r ≡ₚ l ++ r.
Proof.
  revert r. induction l as [|x l IHl]; intros r; [done|].
  induction r as [|y r IHr]; [by rewrite merge_lists_nil_r, app_nil_r|].
  rewrite merge_lists_cons. destruct (key x <=? key y).
  - by rewrite IHl.
  - rewrite IHr. solve_Permutation.
Qed.

Lemma merge_lists_sorted l r :
  StronglySorted (key_le key) l → StronglySorted (key_le key) r →
  StronglySorted (key_le key) (merge_lists key l r).
Proof.
  revert r. induction l as [|x l IHl]; intros r Hl Hr; [done|].
  induction r as [|y r IHr]; [by rewrite merge_lists_nil_r|].
  rewrite merge_lists_cons.
  apply StronglySorted_cons in Hl as [Hxl Hl].
  apply StronglySorted_cons in Hr as [Hyr Hr].
  destruct (Z.leb_spec (key x) (key y)) as [Hle | Hgt].
  - apply StronglySorted_cons. split.
    + rewrite merge_lists_Permutation. apply Forall_app. split; [done|].
      apply Forall_cons. split; [done|].
      eapply Forall_impl; [exact Hyr|]. unfold key_le. intros; simpl in *; lia.
    + apply IHl; [done|]. by apply StronglySorted_cons.
  - apply StronglySorted_cons. split.
    + rewrite merge_lists_Permutation. apply Forall_app. split; [|done].
      apply Forall_cons. split; [unfold key_le; lia|].
      eapply Forall_impl; [exact Hxl|]. unfold key_le. intros; simpl in *; lia.
    + by apply IHr.
Qed.

Lemma with_key_app k l1 l2 :
  with_key key k (l1 ++ l2) = with_key key k l1 ++ with_key key k l2.
Proof. apply filter_app. Qed.

Lemma with_key_cons k x l :
  with_key key k (x :: l)
  = (if decide (key x = k) then [x] else []) ++ with_key key k l.
Proof. unfold with_key. rewrite filter_cons. by destruct (decide _). Qed.

Lemma with_key_none k l :
  Forall (λ x, key x ≠ k) l → with_key key k l = [].
Proof.
  induction 1 as [|x l Hx Hl IH]; [done|].
  rewrite with_key_cons, IH. by rewrite decide_False.
Qed.

(** merge takes the left element on a tie, so the elements of a key come
    out in the order left before right. *)
Lemma merge_lists_with_key k l r :
  StronglySorted (key_le key) l →
  with_key key k (merge_lists key l r) = with_key key k l ++ with_key key k r.
Proof.
  revert r. induction l as [|x l IHl]; intros r Hl; [done|].
  induction r as [|y r IHr].
  { by rewrite merge_lists_nil_r, app_nil_r. }
  rewrite merge_lists_cons.
  destruct (Z.leb_spec (key x) (key y)) as [Hle | Hgt].
  - apply StronglySorted_cons in Hl as [_ Hl].
    by rewrite !(with_key_cons k x), IHl, <- app_assoc.
  - rewrite (with_key_cons k y), IHr, (with_key_cons k y r).
    destruct (decide (key y = k)) as [Hy | Hy]; [|done].
    rewrite (with_key_none k (x :: l)); [done|].
    apply StronglySorted_cons in Hl as [Hxl _].
    apply Forall_cons. split; [lia|].
    eapply Forall_impl; [exact Hxl|]. unfold key_le. intros; simpl in *; lia.
Qed.

Lemma insert_rev_with_key k x r :
  with_key key k (rev (insert_rev key x r))
  = with_key key k (rev r) ++ with_key key k [x].
Proof.
  induction r as [|y r IH]; [done|]. simpl insert_rev.
  destruct (Z.ltb_spec (key x) (key y)) as [Hlt | Hle];
    rewrite Z.gtb_ltb, ?(proj2 (Z.ltb_lt _ _) Hlt), ?(proj2 (Z.ltb_ge _ _) Hle).
  - simpl rev. rewrite !with_key_app, IH, <- !app_assoc. f_equal.
    rewrite !with_key_cons. unfold with_key. simpl.
    destruct (decide (key x = k)), (decide (key y = k)); try done. lia.
  - simpl rev. by rewrite !with_key_app.
Qed.

Lemma isort_from_with_key k r todo :
  with_key key k (isort_from key r todo)
  = with_key key k (rev r) ++ with_key key k todo.
Proof.
  revert r. induction todo as [|x todo IH]; intros r; simpl.
  - by rewrite app_nil_r.
  - rewrite IH, insert_rev_with_key, <- app_assoc. by rewrite <- with_key_app.
Qed.

Lemma stable_sort_short l : (length l ≤ 1)%nat → stable_sort_of key l l.
Proof. intros. split_and!; [done | by apply sorted_short | done]. Qed.

Lemma stable_sort_isort l : stable_sort_of key l (isort key l).
Proof.
  split_and!; [apply isort_Permutation | apply isort_sorted |].
  intros k. unfold isort. by rewrite isort_from_with_key.
Qed.

Lemma stable_sort_merge l1 l2 out1 out2 :
  stable_sort_of key l1 out1 → stable_sort_of key l2 out2 →
  stable_sort_of key (l1 ++ l2) (merge_lists key out1 out2).
Proof.
  intros (Hp1 & Hs1 & Hk1) (Hp2 & Hs2 & Hk2). split_and!.
  - by rewrite merge_lists_Permutation, Hp1, Hp2.
  - by apply merge_lists_sorted.
  - intros k. by rewrite merge_lists_with_key, with_key_app, Hk1, Hk2.
Qed.

(** A list has one stable sort. *)
Lemma stable_sort_unique l out1 out2 :
  stable_sort_of key l out1 → stable_sort_of key l out2 → out1 = out2.
Proof.
  intros (Hp1 & Hs1 & Hk1) (Hp2 & Hs2 & Hk2).
  assert (∀ k, with_key key k out1 = with_key key k out2) as Hk
    by (intros k; by rewrite Hk1, Hk2).
  clear Hk1 Hk2 Hp1 Hp2 l. revert out2 Hs2 Hk.
  induction out1 as [|x out1 IH]; intros out2 Hs2 Hk.
  - destruct out2 as [|y out2]; [done|].
    specialize (Hk (key y)). rewrite with_key_cons, decide_True in Hk by done.
    done.
  - destruct out2 as [|y out2].
    { specialize (Hk (key x)). rewrite with_key_cons, decide_True in Hk by done.
      done. }
    apply StronglySorted_cons in Hs1 as [Hx1 Hs1].
    apply StronglySorted_cons in Hs2 as [Hy2 Hs2].
    assert (key x = key y) as Hxy.
    { pose proof (Hk (key x)) as Hkx. pose proof (Hk (key y)) as Hky.
      rewrite !with_key_cons in Hkx, Hky.
      destruct (decide (key x = key x)) as [_|]; [|done].
      destruct (decide (key y = key y)) as [_|]; [|done].
      destruct (decide (key y = key x)) as [|_]; [done|].
      destruct (decide (key x = key y)) as [|_]; [done|].
      simpl in Hkx, Hky.
      assert (x ∈ with_key key (key x) out2) as Hx
        by (rewrite <- Hkx; apply list_elem_of_here).
      assert (y ∈ with_key key (key y) out1) as Hy
        by (rewrite Hky; apply list_elem_of_here).
      apply list_elem_of_filter in Hx as [_ Hx].
      apply list_elem_of_filter in Hy as [_ Hy].
      rewrite Forall_forall in Hx1, Hy2.
      specialize (Hx1 _ Hy). specialize (Hy2 _ Hx).
      unfold key_le in *. lia. }
    assert (x = y) as <-.
    { specialize (Hk (key x)). rewrite !with_key_cons in Hk.
      destruct (decide (key x = key x)) as [_|]; [|done].
      destruct (decide (key y = key x)) as [_|]; [|done].
      simpl in Hk. by injection Hk. }
    f_equal. apply IH; [done | done |].
    intros k. specialize (Hk k). rewrite !with_key_cons in Hk.
    by apply app_inv_head in Hk.
Qed.

Lemma on_fresh_insertionSort {S} (s : S) l :
  on_fresh l (insertionSort key 0 (len l - 1)) s = (Done (isort key l), s).
Proof.
  unfold on_fresh.
  pose proof (insertionSort_spec [] l [] 0 (len l - 1)) as Hrun.
  simpl in Hrun. rewrite !app_nil_r in Hrun. by rewrite Hrun.
Qed.

Lemma halves_shorter {X} (l : list X) :
  1 < len l →
  (length (take (Z.to_nat (len l `quot` 2)) l) < length l)%nat ∧
  (length (drop (Z.to_nat (len l `quot` 2)) l) < length l)%nat.
Proof.
  intros Hl. rewrite length_take, length_drop.
  pose proof (len_nonneg l).
  assert (0 < len l `quot` 2 < len l).
  { rewrite Z.quot_div_nonneg by lia. split.
    - apply Z.div_str_pos. lia.
    - apply Z.div_lt; lia. }
  unfold len in *. lia.
Qed.

(** mergeSort returns the stable sort of its argument. *)
Lemma mergeSort_fuel_spec {S} (s : S) fuel :
  ∀ l, (length l ≤ fuel)%nat →
    ∃ out, mergeSort_fuel key fuel l s = (Done out, s) ∧
           stable_sort_of key l out.
Proof.
  induction fuel as [|fuel IH]; intros l Hfuel.
  - destruct l; [|simpl in Hfuel; lia].
    exists []. split; [done | apply stable_sort_short; simpl; lia].
  - cbn [mergeSort_fuel].
    destruct (Z.leb_spec (len l) 1) as [Hone | Hmore].
    { exists l. split; [done | apply stable_sort_short; len_solve]. }
    destruct (Z.leb_spec (len l) 16) as [Hsmall | Hbig].
    { exists (isort key l). split;
        [apply on_fresh_insertionSort | apply stable_sort_isort]. }
    destruct (halves_shorter l) as [Htake Hdrop]; [lia|].
    destruct (IH (take (Z.to_nat (len l `quot` 2)) l)) as (o1 & Hrun1 & Hst1);
      [lia|].
    destruct (IH (drop (Z.to_nat (len l `quot` 2)) l)) as (o2 & Hrun2 & Hst2);
      [lia|].
    exists (merge_lists key o1 o2). split.
    + mstep ltac:(exact Hrun1). mstep ltac:(exact Hrun2). apply merge_spec.
    + rewrite <- (take_drop (Z.to_nat (len l `quot` 2)) l) at 1.
      by apply stable_sort_merge.
Qed.

Lemma mergeSort_spec {S} (s : S) l :
  ∃ out, mergeSort key l s = (Done out, s) ∧ stable_sort_of key l out.
Proof. by apply mergeSort_fuel_spec. Qed.

End SequentialFacts.

(** ** The worker pool during a parallel sort *)

Lemma paired_app t1 t2 : paired t1 → paired t2 → paired (t1 ++ t2).
Proof.
  induction 1 as [|e t He1 He2 Ht IH|low high held t Hh _ Ht IH]; intros H2;
    simpl; [done | apply paired_other; [done | done | by apply IH] |].
  rewrite <- app_assoc. simpl. apply paired_slot; [done | by apply IH].
Qed.

Lemma count_app f t1 t2 : count f (t1 ++ t2) = (count f t1 + count f t2)%nat.
Proof. unfold count. by rewrite filter_app, length_app. Qed.

Lemma count_cons f e t :
  count f (e :: t) = ((if f e then 1 else 0) + count f t)%nat.
Proof.
  unfold count. rewrite filter_cons.
  destruct (f e); by destruct (decide _).
Qed.

(** In a paired trace there are as many releases as successful
    acquisitions. *)
Lemma paired_count t : paired t → count gives_slot t = count takes_slot t.
Proof.
  induction 1 as [|e t He1 He2 Ht IH|low high held t Hh IHh Ht IHt].
  - done.
  - by rewrite !count_cons, He1, He2, IH.
  - rewrite !count_cons, !count_app, !count_cons. simpl. lia.
Qed.

Section ParallelFacts.
Context {A : Type} (key : A → Z).
Implicit Types (w v : World A) (a before seg after : list A).

#[local] Abbreviation balanced := (balanced (A:=A)).
#[local] Abbreviation achieves := (achieves (A:=A)).

Lemma balanced_ret {X} (x : X) : balanced (ret x).
Proof.
  intros w r w' [= <- <-] _. split; [done|].
  exists []. by rewrite app_nil_r; split; [|constructor].
Qed.

Lemma balanced_hang {X} : balanced (@hang _ X).
Proof. by intros w r w' [= <- <-] Hr. Qed.

Lemma balanced_panic {X} : balanced (@panic _ X).
Proof.
  intros w r w' [= <- <-] _. split; [done|].
  exists []. by rewrite app_nil_r; split; [|constructor].
Qed.

Lemma balanced_bind {X Y} (m : M (World A) X) (k : X → M (World A) Y) :
  balanced m → (∀ x, balanced (k x)) → balanced (bind m k).
Proof.
  intros Hm Hk w r w' Hrun Hr. unfold bind in Hrun.
  destruct (m w) as [[x| |] w1] eqn:Hmw.
  - destruct (Hm w (Done x) w1 Hmw) as (Hp1 & t1 & Ht1 & Hpair1); [done|].
    destruct (Hk x w1 r w' Hrun Hr) as (Hp2 & t2 & Ht2 & Hpair2).
    split; [congruence|]. exists (t1 ++ t2).
    split; [by rewrite Ht2, Ht1, app_assoc | by apply paired_app].
  - injection Hrun as <- <-. by apply (Hm w Panic w1).
  - injection Hrun as <- <-. done.
Qed.

Lemma balanced_emit e :
  takes_slot e = false → gives_slot e = false → balanced (emit e).
Proof.
  intros He1 He2 w r w' [= <- <-] _. split; [done|].
  exists [e]. split; [done | by repeat constructor].
Qed.

Lemma balanced_arr_len : balanced arr_len.
Proof.
  intros w r w' [= <- <-] _. split; [done|].
  exists []. by rewrite app_nil_r; split; [|constructor].
Qed.

Lemma balanced_on_arr {X} (m : M (list A) X) : balanced (on_arr m).
Proof.
  intros w r w' Hrun _. unfold on_arr in Hrun.
  destruct (m (arr w)) as [r1 a]. injection Hrun as <- <-.
  split; [done|]. exists []. by rewrite app_nil_r; split; [|constructor].
Qed.

(** A computation that does not touch its state. *)
Lemma balanced_pure {X} (m : M (World A) X) :
  (∀ w, ∃ x, m w = (Done x, w)) → balanced m.
Proof.
  intros Hm w r w' Hrun _. destruct (Hm w) as [x Hx].
  rewrite Hx in Hrun. injection Hrun as <- <-.
  split; [done|]. exists []. by rewrite app_nil_r; split; [|constructor].
Qed.

(** The two ways a select on the pool can go. *)
Lemma try_acquire_cases low high w :
  ∃ rest,
    (∃ n c, workerPool w = Some {| used := n; capacity := c |} ∧
       try_acquire low high w
       = (Done true,
          mkWorld (arr w) (Some {| used := S n; capacity := c |}) rest
                  (trace w ++ [EvTryAcquire low high true]))) ∨
    try_acquire low high w
    = (Done false,
       mkWorld (arr w) (workerPool w) rest
               (trace w ++ [EvTryAcquire low high false])).
Proof.
  unfold try_acquire.
  destruct (match sched w with [] => (true, []) | c :: r0 => (c, r0) end)
    as [free rest].
  exists rest. destruct (workerPool w) as [[n c]|]; simpl; [|by right].
  destruct (free && (n <? c)%nat); [left; eauto | by right].
Qed.

Lemma release_done w n c :
  workerPool w = Some {| used := S n; capacity := c |} →
  (recv >> emit EvRelease) w
  = (Done tt, mkWorld (arr w) (Some {| used := n; capacity := c |})
                (sched w) (trace w ++ [EvRelease])).
Proof. intros Hp. unfold bind, recv. by rewrite Hp. Qed.

(** The task of a zone: whether it gets a slot or not, and whether the
    work under the slot returns or panics, the slot is given back. *)
Lemma balanced_forked {X} low high (par seq : M (World A) X) :
  balanced par → balanced seq → balanced (forked low high par seq).
Proof.
  intros Hpar Hseq w r w' Hrun Hr. unfold forked in Hrun.
  destruct (try_acquire_cases low high w)
    as [rest [(n & c & Hpool & Hacq) | Hacq]];
    rewrite (bind_done _ _ _ _ _ _ Hacq eq_refl) in Hrun.
  - (* the slot is taken *)
    unfold defer in Hrun.
    match type of Hrun with
    | context [par ?w1] => destruct (par w1) as [r1 w2] eqn:Hp
    end.
    assert (r1 ≠ Hang) as Hr1.
    { intros ->. injection Hrun as <- <-. done. }
    destruct (Hpar _ _ _ Hp Hr1) as (Hp2 & t & Ht & Hpair).
    simpl in Hp2, Ht. rewrite (release_done w2 n c Hp2) in Hrun.
    assert (w' = mkWorld (arr w2) (Some {| used := n; capacity := c |})
                   (sched w2) (trace w2 ++ [EvRelease])) as ->
      by (destruct r1; by injection Hrun).
    simpl. split; [done|].
    exists (EvTryAcquire low high true :: t ++ [EvRelease]).
    split; [rewrite Ht; by list_norm | constructor; [done | constructor]].
  - (* no slot: the sequential fallback *)
    destruct (Hseq _ _ _ Hrun Hr) as (Hp2 & t & Ht & Hpair).
    simpl in Hp2, Ht. split; [done|].
    exists (EvTryAcquire low high false :: t).
    split; [rewrite Ht; by list_norm | by constructor].
Qed.

Lemma balanced_fork_join {X Y} (t1 : M (World A) X) (t2 : M (World A) Y) :
  balanced t1 → balanced t2 → balanced (fork_join t1 t2).
Proof.
  intros H1 H2 w r w' Hrun Hr. unfold fork_join in Hrun.
  destruct (t1 w) as [r1 w1] eqn:Ht1. destruct (t2 w1) as [r2 w2] eqn:Ht2.
  injection Hrun as <- <-.
  assert (r1 ≠ Hang ∧ r2 ≠ Hang) as [Hr1 Hr2].
  { destruct r1, r2; done. }
  destruct (H1 _ _ _ Ht1 Hr1) as (Hp1 & u1 & Hu1 & Hpair1).
  destruct (H2 _ _ _ Ht2 Hr2) as (Hp2 & u2 & Hu2 & Hpair2).
  split; [congruence|]. exists (u1 ++ u2).
  split; [by rewrite Hu2, Hu1, app_assoc | by apply paired_app].
Qed.

Lemma balanced_mergeSort l : balanced (mergeSort key l).
Proof.
  apply balanced_pure. intros w.
  destruct (mergeSort_spec key w l) as (out & Hrun & _). eauto.
Qed.

Lemma balanced_merge l r : balanced (merge key l r).
Proof.
  apply balanced_pure. intros w. eexists. apply merge_spec.
Qed.

Ltac balanced_step :=
  first
    [ apply balanced_ret
    | apply balanced_hang
    | apply balanced_arr_len
    | apply balanced_on_arr
    | apply balanced_mergeSort
    | apply balanced_merge
    | apply balanced_emit; reflexivity
    | apply balanced_forked
    | apply balanced_fork_join
    | apply balanced_bind; [|intros ?]
    | match goal with
      | |- balanced (if ?c then _ else _) => destruct c
      | |- balanced (match ?x with (_, _) => _ end) => destruct x
      end ].

Lemma balanced_parallelQuickSortHelper_fuel fuel :
  ∀ low high depth,
    balanced (parallelQuickSortHelper_fuel key fuel low high depth).
Proof.
  induction fuel as [|fuel IH]; intros low high depth;
    cbn [parallelQuickSortHelper_fuel]; repeat balanced_step; apply IH.
Qed.

Lemma balanced_parallelMergeSortHelper_fuel fuel :
  ∀ l depth, balanced (parallelMergeSortHelper_fuel key fuel l depth).
Proof.
  induction fuel as [|fuel IH]; intros l depth;
    cbn [parallelMergeSortHelper_fuel]; repeat balanced_step; apply IH.
Qed.

(** *** What the parallel sorters compute *)

Lemma achieves_weaken {X} (m : M (World A) X) (P P' : list A → Prop)
    (Q Q' : X → list A → Prop) :
  achieves m P' Q' → (∀ a, P a → P' a) → (∀ x a, Q' x a → Q x a) →
  achieves m P Q.
Proof.
  intros Hm HP HQ w Hw. destruct (Hm w (HP _ Hw)) as (x & w' & Hrun & Hq).
  exists x, w'. eauto.
Qed.

Lemma achieves_bind {X Y} (m : M (World A) X) (k : X → M (World A) Y)
    P Q R :
  achieves m P Q → (∀ x, achieves (k x) (Q x) R) → achieves (bind m k) P R.
Proof.
  intros Hm Hk w Hw. destruct (Hm w Hw) as (x & w1 & Hrun1 & Hq).
  destruct (Hk x w1 Hq) as (y & w2 & Hrun2 & Hr).
  exists y, w2. split; [|done]. by eapply bind_done.
Qed.

Lemma achieves_ret {X} (x : X) P : achieves (ret x) P (λ _, P).
Proof. intros w Hw. by exists x, w. Qed.

Lemma achieves_emit e P : achieves (emit e) P (λ _, P).
Proof. intros w Hw. eexists tt, _. split; [reflexivity | done]. Qed.

Lemma achieves_arr_len P : achieves arr_len P (λ n a, n = len a ∧ P a).
Proof. intros w Hw. by exists (len (arr w)), w. Qed.

Lemma achieves_on_arr {X} (m : M (list A) X) (P : list A → Prop)
    (Q : X → list A → Prop) :
  (∀ a, P a → ∃ x a', m a = (Done x, a') ∧ Q x a') →
  achieves (on_arr m) P Q.
Proof.
  intros Hm w Hw. destruct (Hm _ Hw) as (x & a' & Hrun & Hq).
  exists x, (set_arr a' w). unfold on_arr. by rewrite Hrun.
Qed.

Lemma achieves_forked {X} low high (par seq : M (World A) X) P Q :
  achieves par P Q → balanced par → achieves seq P Q →
  achieves (forked low high par seq) P Q.
Proof.
  intros Hpar Hbal Hseq w Hw. unfold forked.
  destruct (try_acquire_cases low high w)
    as [rest [(n & c & Hpool & Hacq) | Hacq]];
    rewrite (bind_done _ _ _ _ _ _ Hacq eq_refl).
  - match goal with
    | |- context [defer _ par ?w1] =>
        destruct (Hpar w1 Hw) as (x & w2 & Hrun & Hq)
    end.
    destruct (Hbal _ _ _ Hrun) as [Hp2 _]; [done|]. simpl in Hp2.
    eexists x, _. unfold defer. rewrite Hrun, (release_done w2 n c Hp2).
    split; [reflexivity | done].
  - by apply Hseq.
Qed.

Lemma achieves_fork_join {X Y} (t1 : M (World A) X) (t2 : M (World A) Y)
    P (Q1 : X → list A → Prop) (Q2 : X → Y → list A → Prop) :
  achieves t1 P Q1 → (∀ x, achieves t2 (Q1 x) (Q2 x)) →
  achieves (fork_join t1 t2) P (λ xy a, Q2 xy.1 xy.2 a).
Proof.
  intros H1 H2 w Hw. destruct (H1 w Hw) as (x & w1 & Hrun1 & Hq1).
  destruct (H2 x w1 Hq1) as (y & w2 & Hrun2 & Hq2).
  exists (x, y), w2. unfold fork_join. by rewrite Hrun1, Hrun2.
Qed.

Lemma achieves_quickSortHelper before seg after low high :
  low = len before → high = low + len seg - 1 →
  achieves (on_arr (quickSortHelper key low high))
    (λ a, a = before ++ seg ++ after)
    (λ _, segment_sorted key before seg after).
Proof.
  intros Hlow Hhigh. apply achieves_on_arr. intros a Ha. simpl in Ha. subst a.
  destruct (quickSortHelper_spec key before seg after low high Hlow Hhigh)
    as (seg' & Hrun & Hp & Hs).
  exists tt, (before ++ seg' ++ after). split; [done|]. by exists seg'.
Qed.

Lemma parallelQuickSortHelper_fuel_spec fuel :
  ∀ before seg after low high depth,
    (length seg ≤ fuel)%nat → low = len before → high = low + len seg - 1 →
    achieves (parallelQuickSortHelper_fuel key fuel low high depth)
      (λ a, a = before ++ seg ++ after)
      (λ _, segment_sorted key before seg after).
Proof.
  induction fuel as [|fuel IH];
    intros before seg after low high depth Hfuel Hlow Hhigh.
  { destruct seg; [|simpl in Hfuel; lia]. subst.
    cbn [parallelQuickSortHelper_fuel].
    eapply achieves_bind; [apply achieves_arr_len|]. intros n.
    eapply achieves_bind; [apply achieves_emit|]. intros ?. simpl.
    decide_ltb.
    apply (achieves_weaken _ _ (λ a, a = before ++ [] ++ after)
             _ (λ _ a, a = before ++ [] ++ after));
      [apply achieves_ret | by intros a [_ ?] |].
    intros _ a ->. exists []. split_and!; [done | done | constructor]. }
  cbn [parallelQuickSortHelper_fuel].
  eapply achieves_bind; [apply achieves_arr_len|]. intros n.
  eapply achieves_bind; [apply achieves_emit|]. intros ?. simpl.
  destruct (Z.ltb_spec low high) as [Hlt | Hge].
  2: { apply (achieves_weaken _ _ (λ a, a = before ++ seg ++ after)
                _ (λ _ a, a = before ++ seg ++ after));
         [apply achieves_ret | by intros a [_ ?] |].
       intros _ a ->. exists seg. split_and!; [done | done |].
       apply sorted_short. subst. len_solve. }
  destruct ((depth <=? 1) || (high - low + 1 <=? getOptimalThreshold n _)).
  { eapply achieves_bind; [apply achieves_emit|]. intros ?.
    eapply achieves_weaken;
      [by apply (achieves_quickSortHelper before seg after)
      | by intros a [_ ?] | done]. }
  eapply achieves_bind.
  { apply (achieves_on_arr _ _
             (λ r a, ∃ p L E G,
                 r = (low + len L, low + len L + len E - 1) ∧
                 a = before ++ L ++ E ++ G ++ after ∧ E ≠ [] ∧
                 Forall (λ x, key x < key p) L ∧
                 Forall (λ x, key x = key p) E ∧
                 Forall (λ x, key p < key x) G ∧
                 L ++ E ++ G ≡ₚ seg)).
    intros a [_ Ha]. simpl in Ha. subst a.
    destruct (partition3Way_spec key before seg after low high Hlow Hhigh)
      as (p & L & E & G & Hrun & Hrest).
    { destruct seg; [subst; len_solve | done]. }
    eexists _, _. split; [exact Hrun|]. by exists p, L, E, G. }
  intros [lt gt].
  assert (∀ R, (∀ p L E G,
              lt = low + len L → gt = low + len L + len E - 1 → E ≠ [] →
              Forall (λ x, key x < key p) L →
              Forall (λ x, key x = key p) E →
              Forall (λ x, key p < key x) G →
              L ++ E ++ G ≡ₚ seg →
              achieves R (λ a, a = before ++ L ++ E ++ G ++ after)
                (λ _, segment_sorted key before seg after)) →
            achieves R
              (λ a, ∃ p L E G,
                  (lt, gt) = (low + len L, low + len L + len E - 1) ∧
                  a = before ++ L ++ E ++ G ++ after ∧ E ≠ [] ∧
                  Forall (λ x, key x < key p) L ∧
                  Forall (λ x, key x = key p) E ∧
                  Forall (λ x, key p < key x) G ∧
                  L ++ E ++ G ≡ₚ seg)
              (λ _ : unit, segment_sorted key before seg after)) as Hopen.
  { intros R HR w (p & L & E & G & [= -> ->] & Ha & HE & HL & HEq & HG & Hp).
    by apply (HR p L E G). }
  apply Hopen. clear Hopen. intros p L E G -> -> HE HL HEq HG Hperm.
  assert (length L + length E + length G = length seg)%nat as Hlen.
  { rewrite <- Hperm, !length_app. lia. }
  assert (0 < length E)%nat as HlenE by (destruct E; [done | simpl; lia]).
  eapply achieves_bind; [apply achieves_emit|]. intros ?.
  eapply achieves_bind; [|intros ?; apply achieves_ret].
  eapply achieves_weaken.
  { apply (achieves_fork_join _ _ _
             (λ _, segment_sorted key before L (E ++ G ++ after))
             (λ _ _, segment_sorted key before seg after)).
    - apply achieves_forked.
      + apply IH; [lia | done | subst; lia].
      + apply balanced_parallelQuickSortHelper_fuel.
      + apply achieves_quickSortHelper; [done | subst; lia].
    - intros _ w (L' & Ha & HpL & HsL).
      assert (achieves
                (forked (low + len L + len E - 1 + 1) high
                   (parallelQuickSortHelper_fuel key fuel
                      (low + len L + len E - 1 + 1) high (depth `quot` 2))
                   (on_arr (quickSortHelper key
                      (low + len L + len E - 1 + 1) high)))
                (λ a, a = (before ++ L' ++ E) ++ G ++ after)
                (λ _, segment_sorted key (before ++ L' ++ E) G after)) as Hright.
      { assert (len L' = len L) as HlenL by (unfold len; by rewrite HpL).
        apply achieves_forked.
        - apply IH; [lia | subst; len_solve | subst; len_solve].
        - apply balanced_parallelQuickSortHelper_fuel.
        - apply achieves_quickSortHelper; subst; len_solve. }
      destruct (Hright w) as (u & w' & Hrun & G' & Ha' & HpG & HsG).
      { rewrite Ha. by list_norm. }
      exists u, w'. split; [done|]. exists (L' ++ E ++ G'). split_and!.
      * rewrite Ha'. by list_norm.
      * by rewrite HpL, HpG.
      * apply (sorted_zones key p); try done;
          [by rewrite HpL | by rewrite HpG]. }
  - done.
  - by intros [].
Qed.

Lemma achieves_mergeSort l :
  achieves (mergeSort key l) (λ _, True) (λ out _, stable_sort_of key l out).
Proof.
  intros w _. destruct (mergeSort_spec key w l) as (out & Hrun & Hst).
  by exists out, w.
Qed.

Lemma parallelMergeSortHelper_fuel_spec fuel :
  ∀ l depth,
    (length l ≤ fuel)%nat →
    achieves (parallelMergeSortHelper_fuel key fuel l depth)
      (λ _, True) (λ out _, stable_sort_of key l out).
Proof.
  induction fuel as [|fuel IH]; intros l depth Hfuel.
  { destruct l; [|simpl in Hfuel; lia].
    intros w _. exists [], w. split; [done|].
    apply stable_sort_short. simpl. lia. }
  cbn [parallelMergeSortHelper_fuel].
  destruct (Z.leb_spec (len l) 1) as [Hone | Hmore].
  { intros w _. exists l, w. split; [done|].
    apply stable_sort_short. len_solve. }
  eapply achieves_bind; [apply achieves_emit|]. intros ?.
  destruct ((depth <=? 1) || (len l <? getOptimalThreshold _ _)).
  { eapply achieves_bind; [apply achieves_emit|]. intros ?.
    apply achieves_mergeSort. }
  eapply achieves_bind; [apply achieves_emit|]. intros ?.
  destruct (halves_shorter l Hmore) as [Htake Hdrop].
  eapply achieves_bind.
  { apply (achieves_fork_join _ _ _
             (λ out _, stable_sort_of key (take (Z.to_nat (len l `quot` 2)) l) out)
             (λ out1 out2 _,
                stable_sort_of key (take (Z.to_nat (len l `quot` 2)) l) out1 ∧
                stable_sort_of key (drop (Z.to_nat (len l `quot` 2)) l) out2)).
    - apply achieves_forked;
        [ apply IH; lia | apply balanced_parallelMergeSortHelper_fuel
        | apply achieves_mergeSort ].
    - intros out1 w Hst1.
      destruct (achieves_forked (len l `quot` 2) (len l - 1)
                  (parallelMergeSortHelper_fuel key fuel
                     (drop (Z.to_nat (len l `quot` 2)) l) (depth `quot` 2))
                  (mergeSort key (drop (Z.to_nat (len l `quot` 2)) l))
                  (λ _, True)
                  (λ out _, stable_sort_of key
                              (drop (Z.to_nat (len l `quot` 2)) l) out))
        with (w := w) as (out2 & w' & Hrun & Hst2);
        [ apply IH; lia | apply balanced_parallelMergeSortHelper_fuel
        | apply achieves_mergeSort | done | ].
      by exists out2, w'. }
  intros [out1 out2] w [Hst1 Hst2]. simpl in Hst1, Hst2.
  exists (merge_lists key out1 out2), w. split; [apply merge_spec|].
  rewrite <- (take_drop (Z.to_nat (len l `quot` 2)) l) at 1.
  by apply stable_sort_merge.
Qed.

(** *** The top-level calls *)

Lemma initWorkerPool_spec numCPU w :
  ∃ w1, initWorkerPool numCPU w = (Done tt, w1) ∧
        arr w1 = arr w ∧ trace w1 = trace w ∧ occupancy w1 = occupancy w.
Proof.
  unfold initWorkerPool, occupancy.
  destruct (workerPool w) eqn:Hp; eexists; (split; [reflexivity|]);
    simpl; by rewrite ?Hp.
Qed.

(** parallelQuickSort ends normally, with the array sorted and the pool
    occupied as before. *)
Lemma parallelQuickSort_spec numCPU w :
  ∃ w' t,
    parallelQuickSort key numCPU w = (Done tt, w') ∧
    arr w' ≡ₚ arr w ∧ StronglySorted (key_le key) (arr w') ∧
    occupancy w' = occupancy w ∧ trace w' = trace w ++ t ∧ paired t.
Proof.
  unfold parallelQuickSort.
  destruct (Z.ltb_spec (len (arr w)) 2) as [Hshort | Hlong].
  { exists w, []. rewrite app_nil_r.
    split_and!; try done; [apply sorted_short; len_solve | constructor]. }
  destruct (initWorkerPool_spec numCPU w) as (w1 & Hinit & Ha1 & Ht1 & Ho1).
  destruct (parallelQuickSortHelper_fuel_spec
              (Z.to_nat (len (arr w) - 1 - 0 + 1)) [] (arr w) []
              0 (len (arr w) - 1) numCPU) with (w := w1)
    as ([] & w' & Hrun & a' & Ha' & Hperm & Hsorted);
    [len_solve | done | len_solve | by rewrite Ha1, app_nil_r |].
  simpl in Ha'. rewrite app_nil_r in Ha'. subst a'.
  destruct (balanced_parallelQuickSortHelper_fuel _ _ _ _ _ _ _ Hrun)
    as (Hpool & t & Ht & Hpair); [done|].
  exists w', t. split_and!; try done.
  - by eapply bind_done.
  - unfold occupancy in *. by rewrite Hpool.
  - by rewrite Ht, Ht1.
Qed.

(** parallelMergeSort ends normally, returns the stable sort of its
    argument, and leaves the pool occupied as before. *)
Lemma parallelMergeSort_spec numCPU l w :
  ∃ out w' t,
    parallelMergeSort key numCPU l w = (Done out, w') ∧
    stable_sort_of key l out ∧
    occupancy w' = occupancy w ∧ trace w' = trace w ++ t ∧ paired t.
Proof.
  unfold parallelMergeSort.
  destruct (initWorkerPool_spec numCPU w) as (w1 & Hinit & Ha1 & Ht1 & Ho1).
  destruct (parallelMergeSortHelper_fuel_spec (length l) l numCPU)
    with (w := w1) as (out & w' & Hrun & Hst); [done | done |].
  destruct (balanced_parallelMergeSortHelper_fuel _ _ _ _ _ _ Hrun)
    as (Hpool & t & Ht & Hpair); [done|].
  exists out, w', t. split_and!; try done.
  - by eapply bind_done.
  - unfold occupancy in *. by rewrite Hpool.
  - by rewrite Ht, Ht1.
Qed.

(** resetWorkerPool empties the pool. *)
Lemma resetWorkerPool_loop_spec fuel :
  ∀ w, (occupancy w ≤ fuel)%nat →
    ∃ w', resetWorkerPool_loop fuel w = (Done tt, w') ∧
          arr w' = arr w ∧ occupancy w' = 0%nat ∧ trace w' = trace w.
Proof.
  induction fuel as [|fuel IH]; intros w Hocc.
  - exists w. assert (occupancy w = 0%nat) as Hz by lia.
    cbn [resetWorkerPool_loop]. by rewrite Hz.
  - cbn [resetWorkerPool_loop].
    destruct (occupancy w) as [|n] eqn:Hn; [by exists w|].
    simpl. unfold occupancy in Hn.
    destruct (workerPool w) as [[u c]|] eqn:Hp; [|done]. simpl in Hn. subst u.
    destruct (IH (set_pool (Some {| used := n; capacity := c |}) w))
      as (w' & Hrun & Ha & Ho & Ht); [unfold occupancy; simpl; lia|].
    exists w'. split; [|done].
    eapply bind_done; [|exact Hrun]. unfold recv. by rewrite Hp.
Qed.

Lemma resetWorkerPool_spec w :
  ∃ w', resetWorkerPool w = (Done tt, w') ∧
        arr w' = arr w ∧ occupancy w' = 0%nat ∧ trace w' = trace w.
Proof.
  unfold resetWorkerPool. destruct (workerPool w) as [g|] eqn:Hp.
  - apply resetWorkerPool_loop_spec. unfold occupancy. by rewrite Hp.
  - exists w. unfold occupancy. by rewrite Hp.
Qed.

End ParallelFacts.

(** * The properties of the specification *)

(** ** Ordering and frames, by position *)

Lemma sorted_ascending {A} (key : A → Z) (l : list A) :
  StronglySorted (key_le key) l → ascending key l.
Proof.
  induction 1 as [|x l Hs IH Hall]; intros i j u v Hij Hi Hj; [done|].
  destruct j as [|j]; [lia|]. destruct i as [|i].
  - injection Hi as <-. rewrite Forall_forall in Hall.
    apply Hall. by eapply list_elem_of_lookup_2.
  - apply (IH i j); [lia | done | done].
Qed.

Lemma unchanged_outside_segment {A} (before seg seg' after : list A) low high :
  low = len before → high = low + len seg - 1 → length seg' = length seg →
  unchanged_outside low high (before ++ seg ++ after) (before ++ seg' ++ after).
Proof.
  intros -> -> Hlen. split.
  - rewrite !length_app. lia.
  - intros k [Hk | Hk].
    + rewrite !lookup_app_l; [done | len_solve..].
    + rewrite !(lookup_app_r before) by len_solve.
      rewrite !lookup_app_r by len_solve. by rewrite Hlen.
Qed.

Lemma range_split {A} (a : list A) (low high : Z) :
  0 ≤ low → low ≤ high → high < len a →
  ∃ before seg after,
    a = before ++ seg ++ after ∧ low = len before ∧ high = low + len seg - 1.
Proof.
  intros H0 Hlh Hh.
  exists (take (Z.to_nat low) a),
    (take (Z.to_nat (high - low + 1)) (drop (Z.to_nat low) a)),
    (drop (Z.to_nat (high - low + 1)) (drop (Z.to_nat low) a)).
  split_and!.
  - by rewrite !take_drop.
  - unfold len in *. rewrite length_take. lia.
  - unfold len in *. rewrite !length_take, length_drop. lia.
Qed.

(** ** C1 *)

(** C1. For every sequence of integers, quickSort ends with the array in
    ascending order and holding a permutation of what it held, and mergeSort
    returns an ascending permutation of its argument. *)
Theorem sequential_sorters_correct (input : list Z) :
  (∃ result, quickSort id input = (Done tt, result) ∧
             ascending id result ∧ result ≡ₚ input) ∧
  (∃ result, mergeSort id input tt = (Done result, tt) ∧
             ascending id result ∧ result ≡ₚ input).
Proof.
  split.
  - destruct (quickSort_spec id input) as (result & Hrun & Hp & Hs).
    exists result. split_and!; [done | by apply sorted_ascending | done].
  - destruct (mergeSort_spec id tt input) as (result & Hrun & Hp & Hs & _).
    exists result. split_and!; [done | by apply sorted_ascending | done].
Qed.

(** ** C2 *)

Lemma int_sort_unique (l out1 out2 : list Z) :
  out1 ≡ₚ l → StronglySorted (key_le id) out1 →
  out2 ≡ₚ l → StronglySorted (key_le id) out2 → out1 = out2.
Proof.
  intros Hp1 Hs1 Hp2 Hs2.
  apply (StronglySorted_unique_strong (key_le id)); [|done|done|by rewrite Hp1].
  intros x y _ _. unfold key_le, id. lia.
Qed.

(** C2. On every input, and whatever the pool and the scheduling decisions
    are, parallelQuickSort leaves the array with the contents quickSort
    leaves, and parallelMergeSort returns what mergeSort returns. *)
Theorem parallel_sorters_agree (numCPU : Z) (input : list Z)
    (pool : option Gate) (decisions : list bool) (events : list event) :
  (∃ result w',
      quickSort id input = (Done tt, result) ∧
      parallelQuickSort id numCPU (mkWorld input pool decisions events)
      = (Done tt, w') ∧
      arr w' = result) ∧
  (∃ result w',
      mergeSort id input tt = (Done result, tt) ∧
      parallelMergeSort id numCPU input (mkWorld [] pool decisions events)
      = (Done result, w')).
Proof.
  split.
  - destruct (quickSort_spec id input) as (result & Hrun & Hp & Hs).
    destruct (parallelQuickSort_spec id numCPU
                (mkWorld input pool decisions events))
      as (w' & t & Hprun & Hpp & Hps & _).
    exists result, w'. split_and!; [done | done |].
    by apply (int_sort_unique input).
  - destruct (mergeSort_spec id tt input) as (result & Hrun & Hst).
    destruct (parallelMergeSort_spec id numCPU input
                (mkWorld [] pool decisions events))
      as (out & w' & t & Hprun & Hpst & _).
    exists result, w'. split; [done|].
    by rewrite (stable_sort_unique id input result out).
Qed.

(** ** C3 *)

(** C3. Gate balance.  The task of a zone gives its slot back whether the
    work under the slot returns or panics: if that work and the sequential
    fallback leave the pool as they found it, so does the task, and its
    events are paired - every successful try_acquire has its one release.
    Both schedulers are built from such tasks, so every call of them that
    ends, normally or in a panic, leaves the pool as it was; and the top-level
    calls parallelQuickSort and parallelMergeSort always end, with the
    occupancy of the pool at its value before the call and as many releases
    as successful acquisitions. *)
Theorem gate_balance {A : Type} (key : A → Z) :
  (∀ (X : Type) (low high : Z) (par seq : M (World A) X),
      balanced par → balanced seq → balanced (forked low high par seq)) ∧
  (∀ fuel low high depth,
      balanced (parallelQuickSortHelper_fuel key fuel low high depth)) ∧
  (∀ fuel l depth,
      balanced (parallelMergeSortHelper_fuel key fuel l depth)) ∧
  (∀ numCPU w, ∃ w' t,
      parallelQuickSort key numCPU w = (Done tt, w') ∧
      occupancy w' = occupancy w ∧ trace w' = trace w ++ t ∧
      paired t ∧ count gives_slot t = count takes_slot t) ∧
  (∀ numCPU l w, ∃ out w' t,
      parallelMergeSort key numCPU l w = (Done out, w') ∧
      occupancy w' = occupancy w ∧ trace w' = trace w ++ t ∧
      paired t ∧ count gives_slot t = count takes_slot t).
Proof.
  split_and!.
  - intros X low high par seq. apply balanced_forked.
  - intros fuel. apply balanced_parallelQuickSortHelper_fuel.
  - intros fuel. apply balanced_parallelMergeSortHelper_fuel.
  - intros numCPU w.
    destruct (parallelQuickSort_spec key numCPU w)
      as (w' & t & Hrun & _ & _ & Hocc & Ht & Hpair).
    exists w', t. split_and!; try done. by apply paired_count.
  - intros numCPU l w.
    destruct (parallelMergeSort_spec key numCPU l w)
      as (out & w' & t & Hrun & _ & Hocc & Ht & Hpair).
    exists out, w', t. split_and!; try done. by apply paired_count.
Qed.

(** A task whose work under the slot panics, on a pool with one of two slots
    taken: the panic goes on, the slot has been given back. *)
Lemma gate_balance_witness :
  let w := mkWorld [3; 1; 2] (Some {| used := 1; capacity := 2 |}) [] [] in
  let w' := mkWorld [3; 1; 2] (Some {| used := 1; capacity := 2 |}) []
              [EvTryAcquire 0 2 true; EvRelease] in
  forked 0 2 (@panic _ unit) (ret tt) w = (Panic, w') ∧
  workerPool w' = workerPool w ∧
  ∃ t, trace w' = trace w ++ t ∧ paired t.
Proof.
  intros w w'. split; [reflexivity|].
  apply (proj1 (gate_balance (λ z : Z, z)) unit 0 2 panic (ret tt)
           balanced_panic (balanced_ret tt) w Panic w');
    [reflexivity | discriminate].
Defined.

(** ** C4 *)

(** The quicksort scheduler hands a range of more than one element to
    quickSortHelper, without a partition and without a select on the pool,
    exactly when [depth <= 1] or [size <= threshold]. *)
Lemma parallelQuickSortHelper_delegates {A} (key : A → Z) fuel low high depth
    (w : World A) :
  low < high →
  depth ≤ 1 ∨
  high - low + 1 ≤ getOptimalThreshold (len (arr w)) (high - low + 1) →
  parallelQuickSortHelper_fuel key fuel low high depth w
  = (emit (EvThreshold (len (arr w)) (high - low + 1)
             (getOptimalThreshold (len (arr w)) (high - low + 1))) >>
     emit (EvSequential low high) >>
     on_arr (quickSortHelper key low high)) w.
Proof.
  intros Hlt Hcond.
  assert ((depth <=? 1)
          || (high - low + 1 <=? getOptimalThreshold (len (arr w)) (high - low + 1))
          = true) as Hc.
  { apply orb_true_iff. destruct Hcond; [left | right]; by apply Z.leb_le. }
  destruct fuel; cbn [parallelQuickSortHelper_fuel]; unfold bind at 1;
    unfold arr_len at 1; unfold bind at 1; simpl;
    by rewrite (proj2 (Z.ltb_lt _ _) Hlt), Hc.
Qed.

(** The merge scheduler tests [len(arr) < threshold] with a threshold that is
    [len(arr)] itself below 1000 elements: with a depth budget above one it
    never hands a slice of 2 to 999 elements to mergeSort, it splits it. *)
Lemma parallelMergeSortHelper_splits_small {A} (key : A → Z) fuel
    (l : list A) depth (w : World A) :
  1 < len l < 1000 → 1 < depth →
  getOptimalThreshold (len l) (len l) = len l ∧
  parallelMergeSortHelper_fuel key (S fuel) l depth w
  = (emit (EvThreshold (len l) (len l) (len l)) >>
     emit (EvSplit (len l) (len l `quot` 2)) >>
     let* (lft, rgt) :=
       fork_join
         (forked 0 (len l `quot` 2 - 1)
            (parallelMergeSortHelper_fuel key fuel
               (take (Z.to_nat (len l `quot` 2)) l) (depth `quot` 2))
            (mergeSort key (take (Z.to_nat (len l `quot` 2)) l)))
         (forked (len l `quot` 2) (len l - 1)
            (parallelMergeSortHelper_fuel key fuel
               (drop (Z.to_nat (len l `quot` 2)) l) (depth `quot` 2))
            (mergeSort key (drop (Z.to_nat (len l `quot` 2)) l))) in
     merge key lft rgt) w.
Proof.
  intros Hlen Hdepth.
  assert (getOptimalThreshold (len l) (len l) = len l) as Hthr.
  { unfold getOptimalThreshold. by rewrite (proj2 (Z.ltb_lt _ _)) by lia. }
  split; [done|]. cbn [parallelMergeSortHelper_fuel]. rewrite Hthr.
  rewrite (proj2 (Z.leb_gt (len l) 1)) by lia.
  rewrite (proj2 (Z.leb_gt depth 1)) by lia.
  by rewrite Z.ltb_irrefl.
Qed.

(** C4, at the boundary [size = threshold] of the merge scheduler: two
    elements, depth budget 4.  The threshold is 2, and the call splits and
    selects on the pool for both halves instead of handing the two elements
    to mergeSort. *)
Lemma parallelMergeSortHelper_forks_at_threshold :
  getOptimalThreshold 2 2 = 2 ∧
  parallelMergeSortHelper id [2; 1] 4
    (mkWorld [] (Some {| used := 0; capacity := 4 |}) [] [])
  = (Done [1; 2],
     mkWorld [] (Some {| used := 0; capacity := 4 |}) []
       [EvThreshold 2 2 2; EvSplit 2 1;
        EvTryAcquire 0 0 true; EvRelease;
        EvTryAcquire 1 1 true; EvRelease]).
Proof. split; reflexivity. Qed.

(** ** C5 *)

(** C5, in the merge scheduler: four elements on four CPUs.  The top-level
    call computes its threshold from the 4 elements of the input, the calls
    for the halves compute theirs from the 2 elements they are given. *)
Lemma parallelMergeSortHelper_threshold_per_half :
  trace (snd (parallelMergeSort id 4 [4; 3; 2; 1] (mkWorld [] None [] [])))
  = [EvThreshold 4 4 4; EvSplit 4 2;
     EvTryAcquire 0 1 true;
       EvThreshold 2 2 2; EvSplit 2 1;
       EvTryAcquire 0 0 true; EvRelease;
       EvTryAcquire 1 1 true; EvRelease;
     EvRelease;
     EvTryAcquire 2 3 true;
       EvThreshold 2 2 2; EvSplit 2 1;
       EvTryAcquire 0 0 true; EvRelease;
       EvTryAcquire 1 1 true; EvRelease;
     EvRelease].
Proof. reflexivity. Qed.

(** ** C6 *)

(** The quicksort wrapper: after a panic of the sorter it calls, the pool is
    emptied and the array, as the panic left it, is sorted by quickSort. *)
Lemma safeParallelQuickSort_recovers {A} (key : A → Z)
    (sorter : M (World A) unit) (w w1 : World A) :
  sorter w = (Panic, w1) →
  ∃ w', safeParallelQuickSort_around key sorter w = (Done tt, w') ∧
        occupancy w' = 0%nat ∧
        arr w' ≡ₚ arr w1 ∧ StronglySorted (key_le key) (arr w').
Proof.
  intros Hpanic. unfold safeParallelQuickSort_around, recover_with.
  rewrite Hpanic.
  destruct (resetWorkerPool_spec w1) as (w2 & Hreset & Ha2 & Ho2 & _).
  destruct (quickSort_spec key (arr w2)) as (a' & Hsort & Hp & Hs).
  exists (set_arr a' w2).
  rewrite (bind_done _ _ _ _ _ (Done tt, set_arr a' w2) Hreset).
  - split_and!; [done | done | by rewrite <- Ha2 | done].
  - unfold on_arr. by rewrite Hsort.
Qed.

(** The merge wrapper: after a panic of the sorter it calls, the pool is
    emptied and the wrapper returns nil; the fallback to mergeSort stands
    behind the call that panicked and is not reached. *)
Lemma safeParallelMergeSort_loses_input {A} (key : A → Z)
    (sorter : slice A → M (World A) (slice A)) (input : slice A)
    (w w1 : World A) :
  sorter input w = (Panic, w1) →
  ∃ w', safeParallelMergeSort_around key sorter input w = (Done nil_slice, w') ∧
        occupancy w' = 0%nat.
Proof.
  intros Hpanic. unfold safeParallelMergeSort_around, recover_with.
  rewrite (bind_panic _ _ _ _ Hpanic).
  destruct (resetWorkerPool_spec w1) as (w2 & Hreset & _ & Ho2 & _).
  exists w2. by rewrite Hreset.
Qed.

(** C6, for the merge wrapper: the sorter panics on the input 3, 1, 2 with
    one slot of the pool taken.  The wrapper returns nil. *)
Lemma safeParallelMergeSort_returns_nil :
  safeParallelMergeSort_around id (λ _, panic) (mk_slice [3; 1; 2])
    (mkWorld [] (Some {| used := 1; capacity := 4 |}) [] [])
  = (Done nil_slice,
     mkWorld [] (Some {| used := 0; capacity := 4 |}) [] []).
Proof. reflexivity. Qed.

(** Without a panic the merge wrapper returns what mergeSort returns. *)
Lemma safeParallelMergeSort_no_panic (numCPU : Z) (input : list Z)
    (w : World Z) :
  ∃ out w', safeParallelMergeSort id numCPU (mk_slice input) w
            = (Done (mk_slice out), w') ∧
            mergeSort id input tt = (Done out, tt).
Proof.
  destruct (mergeSort_spec id tt input) as (out & Hrun & Hst).
  destruct (parallelMergeSort_spec id numCPU input w)
    as (out' & w' & t & Hprun & Hpst & _).
  rewrite (stable_sort_unique id input out' out Hpst Hst) in Hprun.
  exists out, w'. split; [|done].
  unfold safeParallelMergeSort, safeParallelMergeSort_around, recover_with,
    on_slice.
  simpl elems.
  by rewrite (bind_done _ _ _ _ _ (Done (mk_slice out), w')
                (bind_done _ _ _ _ _ _ Hprun eq_refl) eq_refl).
Qed.

(** ** C7 *)

(** C7 as stated fails: on a thousand equal elements the first partition
    leaves both outer zones empty, and the task of the empty left zone
    [0..-1] selects on the pool (and gets a slot). *)
Lemma trivial_zone_acquires :
  ¬ (∀ (numCPU : Z) (input : list Z) (pool : option Gate)
       (decisions : list bool) (low high : Z) (ok : bool),
        EvTryAcquire low high ok
          ∈ trace (snd (parallelQuickSort id numCPU
                          (mkWorld input pool decisions []))) →
        1 < high - low + 1).
Proof.
  intros Hclaim.
  specialize (Hclaim 4 (replicate 1000 7) None [] 0 (-1) true).
  assert (trace (snd (parallelQuickSort id 4
                        (mkWorld (replicate 1000 7) None [] [])))
          = [EvThreshold 1000 1000 300; EvPartition 0 999 0 999;
             EvTryAcquire 0 (-1) true; EvThreshold 1000 0 300; EvRelease;
             EvTryAcquire 1000 999 true; EvThreshold 1000 0 300; EvRelease])
    as Htrace by (vm_compute; reflexivity).
  rewrite Htrace in Hclaim.
  assert (1 < -1 - 0 + 1) as Habsurd; [|lia].
  apply Hclaim. apply list_elem_of_further, list_elem_of_further,
    list_elem_of_here.
Qed.

(** C7, amended.  The task of a zone of size at most one makes its one
    select on the pool like the task of any zone.  With a slot, the call of
    the scheduler under it computes the threshold and returns at once, and
    the slot is released; without a slot, quickSortHelper returns at once.
    Either way there is no partition and no further select, and the array and
    the pool are as before. *)
Theorem trivial_zone_task {A : Type} (key : A → Z) (fuel : nat)
    (low high depth : Z) (w : World A) :
  high - low + 1 ≤ 1 →
  ∃ (ok : bool) (rest : list bool),
    forked low high
      (parallelQuickSortHelper_fuel key fuel low high depth)
      (on_arr (quickSortHelper key low high)) w
    = (Done tt,
       mkWorld (arr w) (workerPool w) rest
         (trace w ++
          EvTryAcquire low high ok ::
          (if ok
           then [EvThreshold (len (arr w)) (high - low + 1)
                   (getOptimalThreshold (len (arr w)) (high - low + 1));
                 EvRelease]
           else []))).
Proof.
  intros Hsize.
  assert ((low <? high) = false) as Hlh by (apply Z.ltb_ge; lia).
  unfold forked.
  destruct (try_acquire_cases low high w)
    as [rest [(n & c & Hpool & Hacq) | Hacq]];
    rewrite (bind_done _ _ _ _ _ _ Hacq eq_refl).
  - exists true, rest. unfold defer.
    match goal with
    | |- context [parallelQuickSortHelper_fuel key fuel low high depth ?w1] =>
        assert (parallelQuickSortHelper_fuel key fuel low high depth w1
                = (Done tt,
                   mkWorld (arr w1) (workerPool w1) (sched w1)
                     (trace w1 ++
                      [EvThreshold (len (arr w1)) (high - low + 1)
                         (getOptimalThreshold (len (arr w1)) (high - low + 1))])))
          as Hrun
    end.
    { destruct fuel; cbn [parallelQuickSortHelper_fuel];
        unfold bind, arr_len, emit; simpl; by rewrite Hlh. }
    simpl in Hrun. rewrite Hrun. unfold bind, recv, emit. simpl.
    rewrite Hpool. by list_norm.
  - exists false, rest. unfold on_arr, quickSortHelper.
    assert (∀ f a, quickSortHelper_fuel key f low high a = (Done tt, a)) as Hseq.
    { intros f a. destruct f; cbn [quickSortHelper_fuel]; by rewrite Hlh. }
    rewrite Hseq. by destruct w.
Qed.

(** The empty zone [5..4] of a three-element array, with a free slot. *)
Lemma trivial_zone_task_witness :
  ∃ (ok : bool) (rest : list bool),
    forked 5 4
      (parallelQuickSortHelper_fuel id 3 5 4 2)
      (on_arr (quickSortHelper id 5 4))
      (mkWorld [3; 1; 2] (Some {| used := 0; capacity := 2 |}) [true] [])
    = (Done tt,
       mkWorld [3; 1; 2] (Some {| used := 0; capacity := 2 |}) rest
         ([] ++
          EvTryAcquire 5 4 ok ::
          (if ok
           then [EvThreshold (len [3; 1; 2]) (4 - 5 + 1)
                   (getOptimalThreshold (len [3; 1; 2]) (4 - 5 + 1));
                 EvRelease]
           else []))).
Proof.
  apply (trivial_zone_task id 3 5 4 2
           (mkWorld [3; 1; 2] (Some {| used := 0; capacity := 2 |}) [true] [])).
  lia.
Defined.

(** ** C8 *)

(** C8. The threshold does not depend on the second argument, and it is the
    total size below 1000, 300 from 1000, 800 from 10000 and 1500 from
    100000. *)
Theorem getOptimalThreshold_table (totalSize c1 c2 : Z) :
  getOptimalThreshold totalSize c1 = getOptimalThreshold totalSize c2 ∧
  (totalSize < 1000 → getOptimalThreshold totalSize c1 = totalSize) ∧
  (1000 ≤ totalSize < 10000 → getOptimalThreshold totalSize c1 = 300) ∧
  (10000 ≤ totalSize < 100000 → getOptimalThreshold totalSize c1 = 800) ∧
  (100000 ≤ totalSize → getOptimalThreshold totalSize c1 = 1500).
Proof.
  unfold getOptimalThreshold. split; [done|].
  destruct (Z.ltb_spec totalSize 1000), (Z.ltb_spec totalSize 10000),
    (Z.ltb_spec totalSize 100000); split_and!; intros; lia.
Qed.

Lemma getOptimalThreshold_table_witness :
  getOptimalThreshold 999 10 = 999 ∧
  getOptimalThreshold 1000 10 = 300 ∧
  getOptimalThreshold 9999 10 = 300 ∧
  getOptimalThreshold 10000 10 = 800 ∧
  getOptimalThreshold 99999 10 = 800 ∧
  getOptimalThreshold 100000 10 = 1500 ∧
  getOptimalThreshold 50000 1 = getOptimalThreshold 50000 50000.
Proof.
  split_and!.
  - apply (proj1 (proj2 (getOptimalThreshold_table 999 10 0))). lia.
  - apply (proj1 (proj2 (proj2 (getOptimalThreshold_table 1000 10 0)))). lia.
  - apply (proj1 (proj2 (proj2 (getOptimalThreshold_table 9999 10 0)))). lia.
  - apply (proj1 (proj2 (proj2 (proj2
             (getOptimalThreshold_table 10000 10 0))))). lia.
  - apply (proj1 (proj2 (proj2 (proj2
             (getOptimalThreshold_table 99999 10 0))))). lia.
  - apply (proj2 (proj2 (proj2 (proj2
             (getOptimalThreshold_table 100000 10 0))))). lia.
  - exact (proj1 (getOptimalThreshold_table 50000 1 50000)).
Defined.

(** ** C9 *)

(** C9. When the heads of the two arguments of merge have equal keys, the
    result starts with the head of the left one; and mergeSort keeps, for
    every key, the elements with that key in the order of the input. *)
Theorem mergeSort_stable {A : Type} (key : A → Z) :
  (∀ (x y : A) (l r : list A),
      key x = key y →
      ∃ rest, merge key (x :: l) (y :: r) tt = (Done (x :: rest), tt) ∧
              merge key l (y :: r) tt = (Done rest, tt)) ∧
  (∀ input : list A,
      ∃ result, mergeSort key input tt = (Done result, tt) ∧
                ∀ k, filter (λ e, key e = k) result
                     = filter (λ e, key e = k) input).
Proof.
  split.
  - intros x y l r Hxy. exists (merge_lists key l (y :: r)).
    rewrite !merge_spec, merge_lists_cons.
    by rewrite (proj2 (Z.leb_le (key x) (key y))) by lia.
  - intros input.
    destruct (mergeSort_spec key tt input) as (result & Hrun & _ & _ & Hk).
    by exists result.
Qed.

(** Integers tagged with their position in the input. *)
Lemma mergeSort_stable_witness :
  (∃ rest,
      merge (@fst Z nat) [(1, 0%nat); (3, 1%nat)] [(1, 2%nat); (2, 3%nat)] tt
      = (Done ((1, 0%nat) :: rest), tt) ∧
      merge (@fst Z nat) [(3, 1%nat)] [(1, 2%nat); (2, 3%nat)] tt
      = (Done rest, tt)) ∧
  (∃ result,
      mergeSort (@fst Z nat)
        [(2, 0%nat); (1, 1%nat); (2, 2%nat); (1, 3%nat)] tt
      = (Done result, tt) ∧
      ∀ k, filter (λ e, e.1 = k) result
           = filter (λ e, e.1 = k)
               [(2, 0%nat); (1, 1%nat); (2, 2%nat); (1, 3%nat)]).
Proof.
  split.
  - apply (proj1 (mergeSort_stable (@fst Z nat))). reflexivity.
  - apply (proj2 (mergeSort_stable (@fst Z nat))).
Defined.

(** ** C10 *)

(** C10. On a range [0 <= low <= high < len(arr)], quickSortHelper,
    insertionSort and partition3Way end normally and leave every element
    outside [low..high] where it was, and so does medianOfThree on three
    positions of the range. *)
Theorem in_place_sorters_frame {A : Type} (key : A → Z) (a : list A)
    (low high : Z) :
  0 ≤ low → low ≤ high → high < len a →
  (∃ a', quickSortHelper key low high a = (Done tt, a') ∧
         unchanged_outside low high a a') ∧
  (∃ a', insertionSort key low high a = (Done tt, a') ∧
         unchanged_outside low high a a') ∧
  (∃ r a', partition3Way key low high a = (Done r, a') ∧
           unchanged_outside low high a a') ∧
  (∀ ia ib ic,
      low ≤ ia ≤ high → low ≤ ib ≤ high → low ≤ ic ≤ high →
      ∃ a', medianOfThree key ia ib ic a = (Done tt, a') ∧
            unchanged_outside low high a a').
Proof.
  intros H0 Hlh Hh.
  destruct (range_split a low high H0 Hlh Hh)
    as (before & seg & after & -> & Hlow & Hhigh).
  assert (∀ seg' : list A, seg' ≡ₚ seg → length seg' = length seg) as Hlen
    by (by intros seg' ->).
  split_and!.
  - destruct (quickSortHelper_spec key before seg after low high Hlow Hhigh)
      as (seg' & Hrun & Hp & _).
    exists (before ++ seg' ++ after). split; [done|].
    apply unchanged_outside_segment; auto.
  - exists (before ++ isort key seg ++ after). split.
    + by apply insertionSort_spec.
    + apply unchanged_outside_segment; auto using isort_Permutation.
  - destruct (partition3Way_spec key before seg after low high Hlow Hhigh)
      as (p & L & E & G & Hrun & _ & _ & _ & _ & Hp).
    { destruct seg; [subst; len_solve | done]. }
    eexists _, (before ++ (L ++ E ++ G) ++ after). split.
    + rewrite Hrun. f_equal. by list_norm.
    + apply unchanged_outside_segment; auto.
  - intros ia ib ic Ha Hb Hc.
    destruct (medianOfThree_in_segment key before seg after ia ib ic)
      as (seg' & Hrun & Hp); [lia..|].
    exists (before ++ seg' ++ after). split; [done|].
    apply unchanged_outside_segment; auto.
Qed.

(** The range [1..4] of a six-element array. *)
Lemma in_place_sorters_frame_witness :
  (∃ a', quickSortHelper id 1 4 [5; 3; 8; 1; 9; 2] = (Done tt, a') ∧
         unchanged_outside 1 4 [5; 3; 8; 1; 9; 2] a') ∧
  (∃ a', insertionSort id 1 4 [5; 3; 8; 1; 9; 2] = (Done tt, a') ∧
         unchanged_outside 1 4 [5; 3; 8; 1; 9; 2] a') ∧
  (∃ r a', partition3Way id 1 4 [5; 3; 8; 1; 9; 2] = (Done r, a') ∧
           unchanged_outside 1 4 [5; 3; 8; 1; 9; 2] a') ∧
  (∀ ia ib ic,
      1 ≤ ia ≤ 4 → 1 ≤ ib ≤ 4 → 1 ≤ ic ≤ 4 →
      ∃ a', medianOfThree id ia ib ic [5; 3; 8; 1; 9; 2] = (Done tt, a') ∧
            unchanged_outside 1 4 [5; 3; 8; 1; 9; 2] a').
Proof.
  apply (in_place_sorters_frame id [5; 3; 8; 1; 9; 2] 1 4);
    [lia | lia | by vm_compute].
Defined.

(** * Further properties of the code *)

Lemma all_between_segment {A} (P : A → Prop) (l1 mid l2 : list A) from to :
  from = len l1 → to = from + len mid → Forall P mid →
  all_between P from to (l1 ++ mid ++ l2).
Proof.
  intros -> -> Hall k x Hk Hx.
  rewrite lookup_app_r in Hx by len_solve.
  rewrite lookup_app_l in Hx by len_solve.
  rewrite Forall_forall in Hall. apply Hall.
  by eapply list_elem_of_lookup_2.
Qed.

(** ** The two-way partition *)

Section PartitionFacts.
Context {A : Type} (key : A → Z).
Implicit Types (a l before body after : list A) (x p : A).

(** The invariant of the loop of partition: the part of the range that has
    been looked at is [Le ++ Gt], with [Le] not above the pivot and [Gt]
    above it; [i] is the last position of [Le] and [j] the first position
    not looked at yet.  The pivot stays at [high]. *)
Lemma partition_loop_spec fuel p before after :
  ∀ U Le Gt i j high,
    (length U ≤ fuel)%nat →
    Forall (λ x, key x ≤ key p) Le →
    Forall (λ x, key p < key x) Gt →
    i = len before + len Le - 1 → j = len before + len Le + len Gt →
    high = j + len U →
    ∃ Le' Gt',
      partition_loop key fuel p high i j
        (before ++ Le ++ Gt ++ U ++ p :: after)
      = (Done (len before + len Le' - 1),
         before ++ Le' ++ Gt' ++ p :: after) ∧
      Forall (λ x, key x ≤ key p) Le' ∧
      Forall (λ x, key p < key x) Gt' ∧
      Le' ++ Gt' ≡ₚ Le ++ Gt ++ U.
Proof.
  induction fuel as [|fuel IH]; intros U Le Gt i j high Hfuel HLe HGt
    -> -> ->.
  { destruct U; [|simpl in Hfuel; lia].
    exists Le, Gt. cbn [partition_loop]. decide_ltb.
    split_and!; [done | done | done | by rewrite app_nil_r]. }
  destruct U as [|u U'].
  { exists Le, Gt. cbn [partition_loop]. decide_ltb.
    split_and!; [done | done | done | by rewrite app_nil_r]. }
  cbn [partition_loop]. decide_ltb.
  pose proof (rd_at (before ++ Le ++ Gt ++ (u :: U') ++ p :: after)
                (before ++ Le ++ Gt) u (U' ++ p :: after)
                (len before + len Le + len Gt)) as Hrd.
  destruct (Z.leb_spec (key u) (key p)) as [Hle | Hgt].
  - (* arr[j] <= pivot *)
    assert (∃ Gt1, Gt1 ≡ₚ Gt ∧ len Gt1 = len Gt ∧
              swap (len before + len Le - 1 + 1) (len before + len Le + len Gt)
                (before ++ Le ++ Gt ++ (u :: U') ++ p :: after)
              = (Done tt, before ++ (Le ++ [u]) ++ Gt1 ++ U' ++ p :: after))
      as (Gt1 & HpG & HlG & Hswap).
    { destruct Gt as [|g Gt'].
      - exists []. split_and!; [done | done |].
        rewrite (swap_same _ (before ++ Le) u (U' ++ p :: after));
          [by list_norm | by list_norm | len_solve | len_solve].
      - exists (Gt' ++ [g]). split_and!; [solve_Permutation | len_solve |].
        rewrite (swap_lt _ (before ++ Le) g Gt' u (U' ++ p :: after));
          [by list_norm | by list_norm | len_solve | len_solve]. }
    destruct (IH U' (Le ++ [u]) Gt1
                (len before + len Le - 1 + 1)
                (len before + len Le + len Gt + 1)
                (len before + len Le + len Gt + len (u :: U')))
      as (Le' & Gt' & Hrun & HLe' & HGt' & Hperm);
      [ simpl in Hfuel; lia
      | rewrite Forall_app, Forall_singleton; done
      | by rewrite HpG
      | len_solve | len_solve | len_solve | ].
    exists Le', Gt'.
    split; [|split_and!; try done; rewrite Hperm, HpG; solve_Permutation].
    mstep ltac:(apply Hrd; [by list_norm | len_solve]).
    rewrite (proj2 (Z.leb_le _ _) Hle).
    mstep ltac:(exact Hswap).
    exact Hrun.
  - (* arr[j] > pivot *)
    destruct (IH U' Le (Gt ++ [u])
                (len before + len Le - 1)
                (len before + len Le + len Gt + 1)
                (len before + len Le + len Gt + len (u :: U')))
      as (Le' & Gt' & Hrun & HLe' & HGt' & Hperm);
      [ simpl in Hfuel; lia | done
      | rewrite Forall_app, Forall_singleton; done
      | len_solve | len_solve | len_solve | ].
    exists Le', Gt'.
    split; [|split_and!; try done; rewrite Hperm; solve_Permutation].
    mstep ltac:(apply Hrd; [by list_norm | len_solve]).
    rewrite (proj2 (Z.leb_gt _ _) Hgt).
    etrans; [|exact Hrun]. f_equal; by list_norm.
Qed.

(** partition on the range [low..high] whose last element is [p]: the
    range becomes [Le ++ p :: Gt] and the result is the position of [p]. *)
Lemma partition_spec before body p after low high :
  low = len before → high = low + len body →
  ∃ Le Gt,
    partition key low high (before ++ body ++ p :: after)
    = (Done (low + len Le), before ++ Le ++ p :: Gt ++ after) ∧
    Forall (λ x, key x ≤ key p) Le ∧
    Forall (λ x, key p < key x) Gt ∧
    Le ++ Gt ≡ₚ body.
Proof.
  intros -> ->.
  destruct (partition_loop_spec (Z.to_nat (len before + len body - len before))
              p before after body [] []
              (len before - 1) (len before) (len before + len body))
    as (Le & Gt & Hrun & HLe & HGt & Hperm);
    [len_solve | done | done | len_solve | len_solve | len_solve |].
  simpl in Hrun, Hperm.
  assert (∃ Gt1, Gt1 ≡ₚ Gt ∧
            swap (len before + len Le - 1 + 1) (len before + len body)
              (before ++ Le ++ Gt ++ p :: after)
            = (Done tt, before ++ Le ++ p :: Gt1 ++ after))
    as (Gt1 & HpG & Hswap).
  { assert (len Le + len Gt = len body) as Hlen.
    { unfold len. rewrite <- Hperm, length_app. lia. }
    destruct Gt as [|g Gt'].
    - exists []. split; [done|].
      rewrite (swap_same _ (before ++ Le) p after);
        [by list_norm | by list_norm | len_solve | len_solve].
    - exists (Gt' ++ [g]). split; [solve_Permutation|].
      rewrite (swap_lt _ (before ++ Le) g Gt' p after);
        [by list_norm | by list_norm | len_solve | len_solve]. }
  exists Le, Gt1. split; [|split_and!; try done; [by rewrite HpG..]].
  unfold partition.
  mstep ltac:(apply (rd_at _ (before ++ body) p after);
              [by list_norm | len_solve]).
  mstep ltac:(exact Hrun).
  mstep ltac:(exact Hswap).
  unfold ret. do 2 f_equal. lia.
Qed.

End PartitionFacts.

(** X1. partition on a range [0 <= low <= high < len(arr)] ends normally
    and returns a position [p] of the range.  The pivot, which was the last
    element of the range, is at [p]; the elements of the range before [p]
    are not above the pivot, those behind [p] are above it; the array is a
    permutation of what it was and nothing outside the range has moved. *)
Theorem partition_contract {A : Type} (key : A → Z) (a : list A)
    (low high : Z) (pivot : A) :
  0 ≤ low → low ≤ high → a !! Z.to_nat high = Some pivot →
  ∃ p a',
    partition key low high a = (Done p, a') ∧
    low ≤ p ≤ high ∧
    a' !! Z.to_nat p = Some pivot ∧
    all_between (λ x, key x ≤ key pivot) low p a' ∧
    all_between (λ x, key pivot < key x) (p + 1) (high + 1) a' ∧
    a' ≡ₚ a ∧
    unchanged_outside low high a a'.
Proof.
  intros H0 Hlh Hpivot.
  assert (high < len a) as Hh.
  { apply lookup_lt_Some in Hpivot. unfold len. lia. }
  destruct (range_split a low high H0 Hlh Hh)
    as (before & seg & after & -> & Hlow & Hhigh).
  destruct (snoc_cases seg) as [-> | (body & p & ->)]; [len_solve|].
  assert (p = pivot) as ->.
  { assert ((before ++ (body ++ [p]) ++ after) !! Z.to_nat high = Some p)
      as Hp; [|congruence].
    replace (before ++ (body ++ [p]) ++ after)
      with ((before ++ body) ++ p :: after) by (by list_norm).
    apply list_lookup_middle. len_solve. }
  destruct (partition_spec key before body pivot after low (low + len body))
    as (Le & Gt & Hrun & HLe & HGt & Hperm); [done | done |].
  assert (len Le + len Gt = len body) as Hlen.
  { unfold len. rewrite <- Hperm, length_app. lia. }
  exists (low + len Le), (before ++ Le ++ pivot :: Gt ++ after).
  split_and!.
  - rewrite <- Hrun. f_equal; [len_solve | by list_norm].
  - pose proof (len_nonneg Le). lia.
  - pose proof (len_nonneg Gt). len_solve.
  - replace (before ++ Le ++ pivot :: Gt ++ after)
      with ((before ++ Le) ++ pivot :: Gt ++ after) by (by list_norm).
    apply list_lookup_middle. len_solve.
  - by apply all_between_segment.
  - replace (before ++ Le ++ pivot :: Gt ++ after)
      with ((before ++ Le ++ [pivot]) ++ Gt ++ after) by (by list_norm).
    apply all_between_segment; [len_solve | len_solve | done].
  - rewrite <- Hperm. solve_Permutation.
  - replace (before ++ Le ++ pivot :: Gt ++ after)
      with (before ++ (Le ++ pivot :: Gt) ++ after) by (by list_norm).
    apply unchanged_outside_segment; [done | done |].
    rewrite !length_app. simpl. unfold len in Hlen. lia.
Qed.

(** The range [1..5] of a seven-element array, with pivot 4. *)
Lemma partition_contract_witness :
  ∃ p a',
    partition id 1 5 [5; 3; 8; 1; 9; 4; 7] = (Done p, a') ∧
    1 ≤ p ≤ 5 ∧
    a' !! Z.to_nat p = Some 4 ∧
    all_between (λ x, id x ≤ id 4) 1 p a' ∧
    all_between (λ x, id 4 < id x) (p + 1) (5 + 1) a' ∧
    a' ≡ₚ [5; 3; 8; 1; 9; 4; 7] ∧
    unchanged_outside 1 5 [5; 3; 8; 1; 9; 4; 7] a'.
Proof.
  apply (partition_contract id [5; 3; 8; 1; 9; 4; 7] 1 5 4);
    [lia | lia | reflexivity].
Defined.

(** ** The pivot of the three-way partition *)

Section MedianFacts.
Context {A : Type} (key : A → Z).
Implicit Types (u v w x y z : A).

Lemma insert_at {X} (l1 l2 : list X) (x v : X) (n : nat) :
  n = length l1 → <[n := v]> (l1 ++ x :: l2) = l1 ++ v :: l2.
Proof. intros ->. by rewrite insert_app_r_alt, Nat.sub_diag by lia. Qed.

(** Three positions [ia < ib < ic] of an array, and what is between them. *)
Lemma split_three (a : list A) (ia ib ic : Z) x y z :
  0 ≤ ia → ia < ib → ib < ic →
  a !! Z.to_nat ia = Some x → a !! Z.to_nat ib = Some y →
  a !! Z.to_nat ic = Some z →
  ∃ l1 l2 l3 l4,
    a = l1 ++ x :: l2 ++ y :: l3 ++ z :: l4 ∧
    ia = len l1 ∧ ib = ia + 1 + len l2 ∧ ic = ib + 1 + len l3.
Proof.
  intros H0 Hab Hbc Hx Hy Hz.
  pose proof (take_drop_middle a _ _ Hx) as Ha.
  assert (length (take (Z.to_nat ia) a) = Z.to_nat ia) as Hl1.
  { apply lookup_lt_Some in Hx. rewrite length_take. lia. }
  rewrite <- Ha in Hy, Hz.
  rewrite lookup_app_r, Hl1 in Hy by lia.
  rewrite lookup_app_r, Hl1 in Hz by lia.
  replace (Z.to_nat ib - Z.to_nat ia)%nat
    with (S (Z.to_nat (ib - ia - 1))) in Hy by lia.
  replace (Z.to_nat ic - Z.to_nat ia)%nat
    with (S (Z.to_nat (ic - ia - 1))) in Hz by lia.
  simpl in Hy, Hz.
  pose proof (take_drop_middle _ _ _ Hy) as Hb.
  assert (length (take (Z.to_nat (ib - ia - 1)) (drop (S (Z.to_nat ia)) a))
          = Z.to_nat (ib - ia - 1)) as Hl2.
  { apply lookup_lt_Some in Hy. rewrite length_take. lia. }
  rewrite <- Hb in Hz.
  rewrite lookup_app_r, Hl2 in Hz by lia.
  replace (Z.to_nat (ic - ia - 1) - Z.to_nat (ib - ia - 1))%nat
    with (S (Z.to_nat (ic - ib - 1))) in Hz by lia.
  simpl in Hz.
  pose proof (take_drop_middle _ _ _ Hz) as Hc.
  eexists _, _, _, _. split_and!.
  - rewrite <- Ha at 1. do 2 f_equal. rewrite <- Hb at 1. do 2 f_equal.
    symmetry. exact Hc.
  - unfold len. rewrite Hl1. lia.
  - unfold len. rewrite Hl2. lia.
  - apply lookup_lt_Some in Hz. unfold len. rewrite length_take. lia.
Qed.

(** What medianOfThree does to the values at three different positions. *)
Lemma medianOfThree_spec l1 l2 l3 l4 x y z ia ib ic :
  ia = len l1 → ib = ia + 1 + len l2 → ic = ib + 1 + len l3 →
  ∃ m lo hi,
    medianOfThree key ia ib ic (l1 ++ x :: l2 ++ y :: l3 ++ z :: l4)
    = (Done tt, l1 ++ m :: l2 ++ lo :: l3 ++ hi :: l4) ∧
    key lo ≤ key m ∧ key m ≤ key hi ∧ [m; lo; hi] ≡ₚ [x; y; z].
Proof.
  intros -> -> ->.
  set (frame := λ u v w, l1 ++ u :: l2 ++ v :: l3 ++ w :: l4).
  assert (∀ u v w, rd (len l1) (frame u v w) = (Done u, frame u v w)) as Hra.
  { intros. by apply (rd_at _ l1 u (l2 ++ v :: l3 ++ w :: l4)). }
  assert (∀ u v w, rd (len l1 + 1 + len l2) (frame u v w)
                   = (Done v, frame u v w)) as Hrb.
  { intros. apply (rd_at _ (l1 ++ u :: l2) v (l3 ++ w :: l4));
      [unfold frame; by list_norm | len_solve]. }
  assert (∀ u v w, rd (len l1 + 1 + len l2 + 1 + len l3) (frame u v w)
                   = (Done w, frame u v w)) as Hrc.
  { intros. apply (rd_at _ (l1 ++ u :: l2 ++ v :: l3) w l4);
      [unfold frame; by list_norm | len_solve]. }
  assert (∀ (b : bool) u v w,
            when b (swap (len l1) (len l1 + 1 + len l2)) (frame u v w)
            = (Done tt, if b then frame v u w else frame u v w)) as Hsab.
  { intros [] u v w; [|done]. simpl.
    by apply (swap_lt _ l1 u l2 v (l3 ++ w :: l4)). }
  assert (∀ (b : bool) u v w,
            when b (swap (len l1 + 1 + len l2)
                      (len l1 + 1 + len l2 + 1 + len l3)) (frame u v w)
            = (Done tt, if b then frame u w v else frame u v w)) as Hsbc.
  { intros [] u v w; [|done]. simpl.
    rewrite (swap_lt _ (l1 ++ u :: l2) v l3 w l4);
      unfold frame; [by list_norm | by list_norm | len_solve | len_solve]. }
  unfold medianOfThree. fold (frame x y z).
  destruct (Z.ltb_spec (key y) (key x)) as [H1 | H1].
  - destruct (Z.ltb_spec (key z) (key x)) as [H2 | H2].
    + destruct (Z.ltb_spec (key z) (key y)) as [H3 | H3].
      * exists y, z, x. split; [|split_and!; [lia | lia | solve_Permutation]].
        mstep ltac:(apply Hra). mstep ltac:(apply Hrb).
        rewrite Z.gtb_ltb, (proj2 (Z.ltb_lt _ _) H1).
        mstep ltac:(apply Hsab).
        mstep ltac:(apply Hrb). mstep ltac:(apply Hrc).
        rewrite Z.gtb_ltb, (proj2 (Z.ltb_lt _ _) H2).
        mstep ltac:(apply Hsbc).
        mstep ltac:(apply Hra). mstep ltac:(apply Hrb).
        rewrite Z.gtb_ltb, (proj2 (Z.ltb_lt _ _) H3).
        mstep ltac:(apply Hsab).
        apply (Hsab true).
      * exists z, y, x. split; [|split_and!; [lia | lia | solve_Permutation]].
        mstep ltac:(apply Hra). mstep ltac:(apply Hrb).
        rewrite Z.gtb_ltb, (proj2 (Z.ltb_lt _ _) H1).
        mstep ltac:(apply Hsab).
        mstep ltac:(apply Hrb). mstep ltac:(apply Hrc).
        rewrite Z.gtb_ltb, (proj2 (Z.ltb_lt _ _) H2).
        mstep ltac:(apply Hsbc).
        mstep ltac:(apply Hra). mstep ltac:(apply Hrb).
        rewrite Z.gtb_ltb, (proj2 (Z.ltb_ge _ _) H3).
        mstep ltac:(apply Hsab).
        apply (Hsab true).
    + exists x, y, z. split; [|split_and!; [lia | lia | solve_Permutation]].
      mstep ltac:(apply Hra). mstep ltac:(apply Hrb).
      rewrite Z.gtb_ltb, (proj2 (Z.ltb_lt _ _) H1).
      mstep ltac:(apply Hsab).
      mstep ltac:(apply Hrb). mstep ltac:(apply Hrc).
      rewrite Z.gtb_ltb, (proj2 (Z.ltb_ge _ _) H2).
      mstep ltac:(apply Hsbc).
      mstep ltac:(apply Hra). mstep ltac:(apply Hrb).
      rewrite Z.gtb_ltb, (proj2 (Z.ltb_ge _ _) (Z.lt_le_incl _ _ H1)).
      mstep ltac:(apply Hsab).
      apply (Hsab true).
  - destruct (Z.ltb_spec (key z) (key y)) as [H2 | H2].
    + destruct (Z.ltb_spec (key z) (key x)) as [H3 | H3].
      * exists x, z, y. split; [|split_and!; [lia | lia | solve_Permutation]].
        mstep ltac:(apply Hra). mstep ltac:(apply Hrb).
        rewrite Z.gtb_ltb, (proj2 (Z.ltb_ge _ _) H1).
        mstep ltac:(apply Hsab).
        mstep ltac:(apply Hrb). mstep ltac:(apply Hrc).
        rewrite Z.gtb_ltb, (proj2 (Z.ltb_lt _ _) H2).
        mstep ltac:(apply Hsbc).
        mstep ltac:(apply Hra). mstep ltac:(apply Hrb).
        rewrite Z.gtb_ltb, (proj2 (Z.ltb_lt _ _) H3).
        mstep ltac:(apply Hsab).
        apply (Hsab true).
      * exists z, x, y. split; [|split_and!; [lia | lia | solve_Permutation]].
        mstep ltac:(apply Hra). mstep ltac:(apply Hrb).
        rewrite Z.gtb_ltb, (proj2 (Z.ltb_ge _ _) H1).
        mstep ltac:(apply Hsab).
        mstep ltac:(apply Hrb). mstep ltac:(apply Hrc).
        rewrite Z.gtb_ltb, (proj2 (Z.ltb_lt _ _) H2).
        mstep ltac:(apply Hsbc).
        mstep ltac:(apply Hra). mstep ltac:(apply Hrb).
        rewrite Z.gtb_ltb, (proj2 (Z.ltb_ge _ _) H3).
        mstep ltac:(apply Hsab).
        apply (Hsab true).
    + exists y, x, z. split; [|split_and!; [lia | lia | solve_Permutation]].
      mstep ltac:(apply Hra). mstep ltac:(apply Hrb).
      rewrite Z.gtb_ltb, (proj2 (Z.ltb_ge _ _) H1).
      mstep ltac:(apply Hsab).
      mstep ltac:(apply Hrb). mstep ltac:(apply Hrc).
      rewrite Z.gtb_ltb, (proj2 (Z.ltb_ge _ _) H2).
      mstep ltac:(apply Hsbc).
      mstep ltac:(apply Hra). mstep ltac:(apply Hrb).
      rewrite Z.gtb_ltb, (proj2 (Z.ltb_ge _ _) H1).
      mstep ltac:(apply Hsab).
      apply (Hsab true).
Qed.

End MedianFacts.

(** X2. medianOfThree on three different positions [ia < ib < ic] of the
    array ends normally with the median of the three elements at [ia], the
    smallest at [ib] and the largest at [ic]; every other position is as it
    was. *)
Theorem medianOfThree_median {A : Type} (key : A → Z) (a : list A)
    (ia ib ic : Z) (x y z : A) :
  0 ≤ ia → ia < ib → ib < ic →
  a !! Z.to_nat ia = Some x → a !! Z.to_nat ib = Some y →
  a !! Z.to_nat ic = Some z →
  ∃ m lo hi,
    medianOfThree key ia ib ic a
    = (Done tt,
       <[Z.to_nat ic := hi]> (<[Z.to_nat ib := lo]> (<[Z.to_nat ia := m]> a))) ∧
    key lo ≤ key m ∧ key m ≤ key hi ∧ [m; lo; hi] ≡ₚ [x; y; z].
Proof.
  intros H0 Hab Hbc Hx Hy Hz.
  destruct (split_three a ia ib ic x y z H0 Hab Hbc Hx Hy Hz)
    as (l1 & l2 & l3 & l4 & -> & Hia & Hib & Hic).
  destruct (medianOfThree_spec key l1 l2 l3 l4 x y z ia ib ic Hia Hib Hic)
    as (m & lo & hi & Hrun & Hlo & Hhi & Hperm).
  exists m, lo, hi. split_and!; try done.
  rewrite Hrun. f_equal.
  rewrite (insert_at l1 _ x m) by len_solve.
  replace (l1 ++ m :: l2 ++ y :: l3 ++ z :: l4)
    with ((l1 ++ m :: l2) ++ y :: l3 ++ z :: l4) by (by list_norm).
  rewrite (insert_at (l1 ++ m :: l2) _ y lo) by len_solve.
  replace ((l1 ++ m :: l2) ++ lo :: l3 ++ z :: l4)
    with ((l1 ++ m :: l2 ++ lo :: l3) ++ z :: l4) by (by list_norm).
  rewrite (insert_at (l1 ++ m :: l2 ++ lo :: l3) _ z hi) by len_solve.
  by list_norm.
Qed.

(** First, middle and last element of a five-element array. *)
Lemma medianOfThree_median_witness :
  ∃ m lo hi,
    medianOfThree id 0 2 4 [9; 1; 4; 7; 6]
    = (Done tt,
       <[Z.to_nat 4 := hi]> (<[Z.to_nat 2 := lo]> (<[Z.to_nat 0 := m]>
         [9; 1; 4; 7; 6]))) ∧
    id lo ≤ id m ∧ id m ≤ id hi ∧ [m; lo; hi] ≡ₚ [9; 4; 6].
Proof.
  apply (medianOfThree_median id [9; 1; 4; 7; 6] 0 2 4 9 4 6);
    [lia | lia | lia | reflexivity | reflexivity | reflexivity].
Defined.

(** ** The three-way partition *)

(** X3. partition3Way on a range [0 <= low <= high < len(arr)] ends
    normally and returns two positions [lt <= gt] of the range.  Around some
    pivot, the elements of the range before [lt] are below the pivot, those
    from [lt] to [gt] are equal to it and those behind [gt] are above it; the
    array is a permutation of what it was. *)
Theorem partition3Way_contract {A : Type} (key : A → Z) (a : list A)
    (low high : Z) :
  0 ≤ low → low ≤ high → high < len a →
  ∃ lt gt a' pivot,
    partition3Way key low high a = (Done (lt, gt), a') ∧
    low ≤ lt ∧ lt ≤ gt ∧ gt ≤ high ∧
    all_between (λ x, key x < key pivot) low lt a' ∧
    all_between (λ x, key x = key pivot) lt (gt + 1) a' ∧
    all_between (λ x, key pivot < key x) (gt + 1) (high + 1) a' ∧
    a' ≡ₚ a.
Proof.
  intros H0 Hlh Hh.
  destruct (range_split a low high H0 Hlh Hh)
    as (before & seg & after & -> & Hlow & Hhigh).
  destruct (partition3Way_spec key before seg after low high Hlow Hhigh)
    as (p & L & E & G & Hrun & HE & HL & HEq & HG & Hperm).
  { destruct seg; [subst; len_solve | done]. }
  assert (len L + len E + len G = len seg) as Hlen.
  { unfold len. rewrite <- Hperm, !length_app. lia. }
  assert (0 < len E) as HlenE by (destruct E; [done | len_solve]).
  pose proof (len_nonneg L). pose proof (len_nonneg G).
  exists (low + len L), (low + len L + len E - 1),
    (before ++ L ++ E ++ G ++ after), p.
  split_and!; try done; try lia.
  - by apply all_between_segment.
  - replace (before ++ L ++ E ++ G ++ after)
      with ((before ++ L) ++ E ++ G ++ after) by (by list_norm).
    apply all_between_segment; [len_solve | len_solve | done].
  - replace (before ++ L ++ E ++ G ++ after)
      with ((before ++ L ++ E) ++ G ++ after) by (by list_norm).
    apply all_between_segment; [len_solve | len_solve | done].
  - rewrite <- Hperm. solve_Permutation.
Qed.

(** The range [1..6] of an eight-element array with repeated values. *)
Lemma partition3Way_contract_witness :
  ∃ lt gt a' pivot,
    partition3Way id 1 6 [0; 5; 3; 5; 1; 9; 5; 2] = (Done (lt, gt), a') ∧
    1 ≤ lt ∧ lt ≤ gt ∧ gt ≤ 6 ∧
    all_between (λ x, id x < id pivot) 1 lt a' ∧
    all_between (λ x, id x = id pivot) lt (gt + 1) a' ∧
    all_between (λ x, id pivot < id x) (gt + 1) (6 + 1) a' ∧
    a' ≡ₚ [0; 5; 3; 5; 1; 9; 5; 2].
Proof.
  apply (partition3Way_contract id [0; 5; 3; 5; 1; 9; 5; 2] 1 6);
    [lia | lia | by vm_compute].
Defined.

(** ** The sorters on a range of the array *)

Lemma range_of_segment {A} (before seg after : list A) low high :
  low = len before → high = low + len seg - 1 →
  range_of low high (before ++ seg ++ after) = seg.
Proof.
  intros -> ->. unfold range_of.
  rewrite to_nat_len, drop_app_length.
  replace (Z.to_nat (len before + len seg - 1 - len before + 1))
    with (length seg) by len_solve.
  by rewrite take_app_length.
Qed.

(** X4. insertionSort on a range [0 <= low <= high < len(arr)] ends
    normally; the range then holds the stable sort of what it held - a
    permutation in ascending order in which elements with equal keys keep
    their order - and nothing outside the range has moved. *)
Theorem insertionSort_contract {A : Type} (key : A → Z) (a : list A)
    (low high : Z) :
  0 ≤ low → low ≤ high → high < len a →
  ∃ a',
    insertionSort key low high a = (Done tt, a') ∧
    stable_sort_of key (range_of low high a) (range_of low high a') ∧
    ascending key (range_of low high a') ∧
    unchanged_outside low high a a'.
Proof.
  intros H0 Hlh Hh.
  destruct (range_split a low high H0 Hlh Hh)
    as (before & seg & after & -> & Hlow & Hhigh).
  exists (before ++ isort key seg ++ after).
  assert (length (isort key seg) = length seg) as Hlen
    by (by rewrite isort_Permutation).
  assert (high = low + len (isort key seg) - 1) as Hhigh'
    by (unfold len in *; lia).
  rewrite !range_of_segment by done.
  split_and!.
  - by apply insertionSort_spec.
  - apply stable_sort_isort.
  - apply sorted_ascending, isort_sorted.
  - by apply unchanged_outside_segment.
Qed.

(** Keys with their position in the input, on the range [1..4]. *)
Lemma insertionSort_contract_witness :
  let a := [(9, 0%nat); (2, 1%nat); (1, 2%nat); (2, 3%nat); (1, 4%nat);
            (0, 5%nat)] in
  ∃ a',
    insertionSort (@fst Z nat) 1 4 a = (Done tt, a') ∧
    stable_sort_of fst (range_of 1 4 a) (range_of 1 4 a') ∧
    ascending fst (range_of 1 4 a') ∧
    unchanged_outside 1 4 a a'.
Proof.
  intros a. apply (insertionSort_contract (@fst Z nat) a 1 4);
    [lia | lia | by vm_compute].
Defined.

(** X5. On a range [0 <= low <= high < len(arr)], quickSortHelper and, for
    every depth budget, pool and sequence of scheduling decisions,
    parallelQuickSortHelper end normally with the range in ascending order
    and holding a permutation of what it held; nothing outside the range has
    moved. *)
Theorem quickSortHelper_contract {A : Type} (key : A → Z) (a : list A)
    (low high : Z) :
  0 ≤ low → low ≤ high → high < len a →
  (∃ a',
      quickSortHelper key low high a = (Done tt, a') ∧
      range_of low high a' ≡ₚ range_of low high a ∧
      ascending key (range_of low high a') ∧
      unchanged_outside low high a a') ∧
  (∀ depth pool decisions events,
      ∃ w',
        parallelQuickSortHelper key low high depth
          (mkWorld a pool decisions events) = (Done tt, w') ∧
        range_of low high (arr w') ≡ₚ range_of low high a ∧
        ascending key (range_of low high (arr w')) ∧
        unchanged_outside low high a (arr w')).
Proof.
  intros H0 Hlh Hh.
  destruct (range_split a low high H0 Hlh Hh)
    as (before & seg & after & -> & Hlow & Hhigh).
  assert (∀ seg' : list A, seg' ≡ₚ seg →
            high = low + len seg' - 1 ∧ length seg' = length seg) as Hlen.
  { intros seg' Hp. unfold len in *. rewrite Hp. lia. }
  split.
  - destruct (quickSortHelper_spec key before seg after low high Hlow Hhigh)
      as (seg' & Hrun & Hp & Hs).
    destruct (Hlen _ Hp) as [Hhigh' Hl].
    exists (before ++ seg' ++ after).
    rewrite !range_of_segment by done.
    split_and!; [done | done | by apply sorted_ascending |].
    by apply unchanged_outside_segment.
  - intros depth pool decisions events.
    destruct (parallelQuickSortHelper_fuel_spec key
                (Z.to_nat (high - low + 1)) before seg after low high depth)
      with (w := mkWorld (before ++ seg ++ after) pool decisions events)
      as ([] & w' & Hrun & seg' & Ha' & Hp & Hs);
      [unfold len in *; lia | done | done | done |].
    destruct (Hlen _ Hp) as [Hhigh' Hl].
    exists w'. rewrite Ha', !range_of_segment by done.
    split_and!; [done | done | by apply sorted_ascending |].
    by apply unchanged_outside_segment.
Qed.

(** The range [2..21] of a 24-element array, long enough for a partition. *)
Lemma quickSortHelper_contract_witness :
  let a := [99; 98; 3; 1; 4; 1; 5; 9; 2; 6; 5; 3; 5; 8; 9; 7; 9; 3; 2; 3; 8;
            4; -1; -2] in
  (∃ a',
      quickSortHelper id 2 21 a = (Done tt, a') ∧
      range_of 2 21 a' ≡ₚ range_of 2 21 a ∧
      ascending id (range_of 2 21 a') ∧
      unchanged_outside 2 21 a a') ∧
  (∀ depth pool decisions events,
      ∃ w',
        parallelQuickSortHelper id 2 21 depth
          (mkWorld a pool decisions events) = (Done tt, w') ∧
        range_of 2 21 (arr w') ≡ₚ range_of 2 21 a ∧
        ascending id (range_of 2 21 (arr w')) ∧
        unchanged_outside 2 21 a (arr w')).
Proof.
  intros a. apply (quickSortHelper_contract id a 2 21);
    [lia | lia | by vm_compute].
Defined.

(** ** merge, and sorting what is sorted *)

Lemma ascending_sorted {A} (key : A → Z) (l : list A) :
  ascending key l → StronglySorted (key_le key) l.
Proof.
  induction l as [|x l IH]; intros Hasc; constructor.
  - apply IH. intros i j u v Hij Hi Hj. by apply (Hasc (S i) (S j) u v); [lia|..].
  - apply Forall_forall. intros y [j Hj]%list_elem_of_lookup_1.
    by apply (Hasc 0%nat (S j) x y); [lia|..].
Qed.

(** X6. merge of two ascending sequences ends normally and returns an
    ascending permutation of the two together, in which, for every key, the
    elements of the left sequence with that key come before those of the
    right one, each side in its own order. *)
Theorem merge_contract {A : Type} (key : A → Z) (left right : list A) :
  ascending key left → ascending key right →
  ∃ out,
    merge key left right tt = (Done out, tt) ∧
    ascending key out ∧
    out ≡ₚ left ++ right ∧
    ∀ k, filter (λ e, key e = k) out
         = filter (λ e, key e = k) left ++ filter (λ e, key e = k) right.
Proof.
  intros Hl%ascending_sorted Hr%ascending_sorted.
  exists (merge_lists key left right). split_and!.
  - apply merge_spec.
  - by apply sorted_ascending, merge_lists_sorted.
  - apply merge_lists_Permutation.
  - intros k. by apply merge_lists_with_key.
Qed.

(** Two ascending sequences of keys tagged with their origin. *)
Lemma merge_contract_witness :
  let left := [(1, 0%nat); (2, 1%nat); (2, 2%nat); (5, 3%nat)] in
  let right := [(2, 10%nat); (3, 11%nat); (5, 12%nat)] in
  ∃ out,
    merge (@fst Z nat) left right tt = (Done out, tt) ∧
    ascending fst out ∧
    out ≡ₚ left ++ right ∧
    ∀ k, filter (λ e, e.1 = k) out
         = filter (λ e, e.1 = k) left ++ filter (λ e, e.1 = k) right.
Proof.
  intros left right.
  apply (merge_contract (@fst Z nat) left right);
    intros i j x y Hij Hi Hj;
    repeat (destruct i as [|i]; [|try done]);
    repeat (destruct j as [|j]; try lia; try done);
    simpl in *; simplify_eq; simpl; lia.
Defined.

(** X7. Sorting is idempotent on integers: on an input that is already in
    ascending order quickSort and parallelQuickSort leave the array as it is,
    and mergeSort and parallelMergeSort return the input. *)
Theorem sorters_keep_sorted_input (input : list Z) (numCPU : Z)
    (pool : option Gate) (decisions : list bool) (events : list event) :
  ascending id input →
  quickSort id input = (Done tt, input) ∧
  mergeSort id input tt = (Done input, tt) ∧
  (∃ w', parallelQuickSort id numCPU (mkWorld input pool decisions events)
         = (Done tt, w') ∧ arr w' = input) ∧
  (∃ w', parallelMergeSort id numCPU input (mkWorld [] pool decisions events)
         = (Done input, w')).
Proof.
  intros Hs%ascending_sorted. split_and!.
  - destruct (quickSort_spec id input) as (a' & Hrun & Hp & Hs').
    by rewrite Hrun, (int_sort_unique input a' input).
  - destruct (mergeSort_spec id tt input) as (out & Hrun & Hp & Hs' & _).
    by rewrite Hrun, (int_sort_unique input out input).
  - destruct (parallelQuickSort_spec id numCPU
                (mkWorld input pool decisions events))
      as (w' & t & Hrun & Hp & Hs' & _).
    exists w'. split; [done|]. by apply (int_sort_unique input).
  - destruct (parallelMergeSort_spec id numCPU input
                (mkWorld [] pool decisions events))
      as (out & w' & t & Hrun & (Hp & Hs' & _) & _).
    exists w'. by rewrite Hrun, (int_sort_unique input out input).
Qed.

(** Twenty ascending integers with repetitions. *)
Lemma sorters_keep_sorted_input_witness :
  let input := [-3; -3; 0; 1; 1; 2; 3; 5; 8; 8; 9; 10; 12; 12; 13; 20; 21;
                34; 55; 89] in
  quickSort id input = (Done tt, input) ∧
  mergeSort id input tt = (Done input, tt) ∧
  (∃ w', parallelQuickSort id 4 (mkWorld input None [] [])
         = (Done tt, w') ∧ arr w' = input) ∧
  (∃ w', parallelMergeSort id 4 input (mkWorld [] None [] [])
         = (Done input, w')).
Proof.
  intros input.
  apply (sorters_keep_sorted_input input 4 None [] []).
  apply sorted_ascending. unfold input.
  repeat first [ apply SSorted_nil | apply SSorted_cons
               | apply List.Forall_nil | apply List.Forall_cons ];
    unfold key_le, id; lia.
Defined.

(** ** The life of the worker pool *)

Section PoolFacts.
Context {A : Type} (key : A → Z).
Implicit Types (w : World A).

Lemma resetWorkerPool_loop_exact fuel :
  ∀ w u c,
    workerPool w = Some {| used := u; capacity := c |} → (u ≤ fuel)%nat →
    resetWorkerPool_loop fuel w
    = (Done tt, set_pool (Some {| used := 0; capacity := c |}) w).
Proof.
  induction fuel as [|fuel IH]; intros w u c Hp Hu.
  - assert (u = 0%nat) as -> by lia.
    cbn [resetWorkerPool_loop]. unfold occupancy. rewrite Hp. simpl.
    destruct w. simpl in Hp. by subst.
  - cbn [resetWorkerPool_loop]. unfold occupancy. rewrite Hp. simpl.
    destruct u as [|u]; simpl.
    + destruct w. simpl in Hp. by subst.
    + eapply bind_done.
      * unfold recv. by rewrite Hp.
      * rewrite (IH _ u c); [done | done | lia].
Qed.

Lemma initWorkerPool_exact numCPU w :
  initWorkerPool numCPU w
  = (Done tt,
     set_pool
       (Some (match workerPool w with
              | Some g => g
              | None => {| used := 0; capacity := Z.to_nat numCPU |}
              end)) w).
Proof.
  unfold initWorkerPool. destruct w as [a [g|] s t]; reflexivity.
Qed.

End PoolFacts.

(** X8. resetWorkerPool always ends normally and empties the pool:
    afterwards getWorkerPoolStatus reports no slot in use and the capacity it
    reported before; the array, the pending decisions and the events are
    untouched, and a pool that was never made stays nil. *)
Theorem resetWorkerPool_contract {A : Type} (w : World A) :
  ∃ w',
    resetWorkerPool w = (Done tt, w') ∧
    getWorkerPoolStatus w' = (0, (getWorkerPoolStatus w).2) ∧
    arr w' = arr w ∧ sched w' = sched w ∧ trace w' = trace w ∧
    (workerPool w = None ↔ workerPool w' = None).
Proof.
  unfold resetWorkerPool, getWorkerPoolStatus.
  destruct (workerPool w) as [[u c]|] eqn:Hp.
  - exists (set_pool (Some {| used := 0; capacity := c |}) w).
    split; [by apply (resetWorkerPool_loop_exact _ w u c)|]. done.
  - exists w. by rewrite Hp.
Qed.

(** X9. The pool is made once.  parallelMergeSort, and parallelQuickSort on
    an array of at least two elements, end with the pool they found, in the
    state they found it; if there was none they leave a pool of
    [runtime.NumCPU()] slots, all free.  parallelQuickSort on a shorter array
    returns before the pool is looked at and changes nothing at all. *)
Theorem worker_pool_made_once {A : Type} (key : A → Z) (numCPU : Z)
    (w : World A) (l : list A) :
  let pool_after :=
    Some (match workerPool w with
          | Some g => g
          | None => {| used := 0; capacity := Z.to_nat numCPU |}
          end) in
  (∃ out w', parallelMergeSort key numCPU l w = (Done out, w') ∧
             workerPool w' = pool_after) ∧
  (2 ≤ len (arr w) →
   ∃ w', parallelQuickSort key numCPU w = (Done tt, w') ∧
         workerPool w' = pool_after) ∧
  (len (arr w) < 2 → parallelQuickSort key numCPU w = (Done tt, w)).
Proof.
  intros pool_after. split_and!.
  - destruct (parallelMergeSort_spec key numCPU l w)
      as (out & w' & t & Hrun & _).
    exists out, w'. split; [done|].
    unfold parallelMergeSort, bind in Hrun.
    rewrite initWorkerPool_exact in Hrun.
    by destruct (balanced_parallelMergeSortHelper_fuel key _ _ _ _ _ _ Hrun).
  - intros Hlen.
    destruct (parallelQuickSort_spec key numCPU w)
      as (w' & t & Hrun & _).
    exists w'. split; [done|].
    unfold parallelQuickSort in Hrun.
    rewrite (proj2 (Z.ltb_ge _ _) Hlen) in Hrun. unfold bind in Hrun.
    rewrite initWorkerPool_exact in Hrun.
    by destruct (balanced_parallelQuickSortHelper_fuel key _ _ _ _ _ _ _ Hrun).
  - intros Hlen. unfold parallelQuickSort.
    by rewrite (proj2 (Z.ltb_lt _ _) Hlen).
Qed.

(** A first sort on four CPUs, then the state of the pool. *)
Lemma worker_pool_made_once_witness :
  let w := mkWorld [3; 1; 2] None [] [] in
  let pool_after := Some {| used := 0; capacity := 4 |} in
  (∃ out w', parallelMergeSort id 4 [2; 1] w = (Done out, w') ∧
             workerPool w' = pool_after) ∧
  (∃ w', parallelQuickSort id 4 w = (Done tt, w') ∧
         workerPool w' = pool_after) ∧
  parallelQuickSort id 4 (mkWorld [7] None [] [])
  = (Done tt, mkWorld [7] None [] []).
Proof.
  intros w pool_after. split_and!.
  - apply (proj1 (worker_pool_made_once id 4 w [2; 1])).
  - apply (proj1 (proj2 (worker_pool_made_once id 4 w [2; 1]))).
    by vm_compute.
  - apply (proj2 (proj2 (worker_pool_made_once id 4
                           (mkWorld [7] None [] []) []))).
    by vm_compute.
Defined.

(** ** How many goroutines a parallel sort starts *)

Section SelectFacts.
Context {A : Type} (key : A → Z).
Implicit Types (w : World A).

#[local] Abbreviation selects_at_most := (selects_at_most (A:=A)).

Lemma selects_weaken {X} (n n' : Z) (m : M (World A) X) :
  selects_at_most n m → n ≤ n' → selects_at_most n' m.
Proof.
  intros Hm Hn w r w' Hrun. destruct (Hm w r w' Hrun) as (t & Ht & Hc).
  exists t. split; [done | lia].
Qed.

(** A computation that adds no event. *)
Lemma selects_silent {X} (m : M (World A) X) :
  (∀ w r w', m w = (r, w') → trace w' = trace w) → selects_at_most 0 m.
Proof.
  intros Hm w r w' Hrun. exists []. rewrite app_nil_r.
  split; [by eapply Hm | done].
Qed.

Lemma selects_emit e : is_select e = false → selects_at_most 0 (emit e).
Proof.
  intros He w r w' [= <- <-]. exists [e]. split; [done|].
  rewrite count_cons, He. unfold count. simpl. lia.
Qed.

Lemma selects_bind {X Y} (n1 n2 : Z) (m : M (World A) X)
    (k : X → M (World A) Y) :
  selects_at_most n1 m → (∀ x, selects_at_most n2 (k x)) → 0 ≤ n2 →
  selects_at_most (n1 + n2) (bind m k).
Proof.
  intros Hm Hk Hn w r w' Hrun. unfold bind in Hrun.
  destruct (m w) as [[x| |] w1] eqn:Hmw.
  - destruct (Hm _ _ _ Hmw) as (t1 & Ht1 & Hc1).
    destruct (Hk x _ _ _ Hrun) as (t2 & Ht2 & Hc2).
    exists (t1 ++ t2). split; [by rewrite Ht2, Ht1, app_assoc|].
    rewrite count_app. lia.
  - injection Hrun as <- <-. destruct (Hm _ _ _ Hmw) as (t1 & Ht1 & Hc1).
    exists t1. split; [done | lia].
  - injection Hrun as <- <-. destruct (Hm _ _ _ Hmw) as (t1 & Ht1 & Hc1).
    exists t1. split; [done | lia].
Qed.

Lemma selects_after_silent {X Y} (n : Z) (m : M (World A) X)
    (k : X → M (World A) Y) :
  selects_at_most 0 m → (∀ x, selects_at_most n (k x)) → 0 ≤ n →
  selects_at_most n (bind m k).
Proof.
  intros Hm Hk Hn. replace n with (0 + n) by lia. by apply selects_bind.
Qed.

Lemma selects_release : selects_at_most 0 (recv >> emit EvRelease).
Proof.
  apply (selects_after_silent 0); [|intros; by apply selects_emit|done].
  apply selects_silent. intros w r w' Hrun. unfold recv in Hrun.
  destruct (workerPool w) as [[[|u] c]|]; by injection Hrun as <- <-.
Qed.

Lemma selects_defer {X} (n : Z) (cleanup : M (World A) unit)
    (body : M (World A) X) :
  selects_at_most 0 cleanup → selects_at_most n body →
  selects_at_most n (defer cleanup body).
Proof.
  intros Hc Hb w r w' Hrun. unfold defer in Hrun.
  destruct (body w) as [[x| |] w1] eqn:Hbw;
    destruct (Hb _ _ _ Hbw) as (t1 & Ht1 & Hc1).
  - destruct (cleanup w1) as [rc w2] eqn:Hcw.
    destruct (Hc _ _ _ Hcw) as (t2 & Ht2 & Hc2).
    assert (w' = w2) as -> by (destruct rc; by injection Hrun).
    exists (t1 ++ t2). split; [by rewrite Ht2, Ht1, app_assoc|].
    rewrite count_app. lia.
  - destruct (cleanup w1) as [rc w2] eqn:Hcw.
    destruct (Hc _ _ _ Hcw) as (t2 & Ht2 & Hc2).
    assert (w' = w2) as -> by (destruct rc; by injection Hrun).
    exists (t1 ++ t2). split; [by rewrite Ht2, Ht1, app_assoc|].
    rewrite count_app. lia.
  - injection Hrun as <- <-. by exists t1.
Qed.

(** The task of a zone makes its own select and then those of the work it
    does. *)
Lemma selects_forked {X} (n : Z) low high (par seq : M (World A) X) :
  0 ≤ n → selects_at_most n par → selects_at_most n seq →
  selects_at_most (1 + n) (forked low high par seq).
Proof.
  intros Hn Hpar Hseq w r w' Hrun. unfold forked in Hrun.
  assert (∀ ok w1, selects_at_most n
            (if ok : bool then defer (recv >> emit EvRelease) par else seq))
    as Hrest.
  { intros [] _; [apply selects_defer; [apply selects_release | done] | done]. }
  destruct (try_acquire_cases low high w)
    as [rest [(u & c & Hpool & Hacq) | Hacq]];
    rewrite (bind_done _ _ _ _ _ _ Hacq eq_refl) in Hrun.
  - destruct (Hrest true w _ _ _ Hrun) as (t & Ht & Hc). simpl in Ht.
    exists (EvTryAcquire low high true :: t).
    split; [rewrite Ht; by list_norm|]. rewrite count_cons. simpl. lia.
  - destruct (Hrest false w _ _ _ Hrun) as (t & Ht & Hc). simpl in Ht.
    exists (EvTryAcquire low high false :: t).
    split; [rewrite Ht; by list_norm|]. rewrite count_cons. simpl. lia.
Qed.

Lemma selects_fork_join {X Y} (n1 n2 : Z) (t1 : M (World A) X)
    (t2 : M (World A) Y) :
  selects_at_most n1 t1 → selects_at_most n2 t2 →
  selects_at_most (n1 + n2) (fork_join t1 t2).
Proof.
  intros H1 H2 w r w' Hrun. unfold fork_join in Hrun.
  destruct (t1 w) as [r1 w1] eqn:Hr1. destruct (t2 w1) as [r2 w2] eqn:Hr2.
  injection Hrun as <- <-.
  destruct (H1 _ _ _ Hr1) as (u1 & Hu1 & Hc1).
  destruct (H2 _ _ _ Hr2) as (u2 & Hu2 & Hc2).
  exists (u1 ++ u2). split; [by rewrite Hu2, Hu1, app_assoc|].
  rewrite count_app. lia.
Qed.

Lemma selects_on_arr {X} (m : M (list A) X) : selects_at_most 0 (on_arr m).
Proof.
  apply selects_silent. intros w r w' Hrun. unfold on_arr in Hrun.
  destruct (m (arr w)). by injection Hrun as <- <-.
Qed.

Lemma selects_mergeSort l : selects_at_most 0 (mergeSort key l).
Proof.
  apply selects_silent. intros w r w' Hrun.
  destruct (mergeSort_spec key w l) as (out & Hout & _).
  rewrite Hout in Hrun. by injection Hrun as <- <-.
Qed.

Lemma selects_merge l r : selects_at_most 0 (merge key l r).
Proof.
  apply selects_silent. intros w r0 w' Hrun.
  rewrite merge_spec in Hrun. by injection Hrun as <- <-.
Qed.

(** The selects a depth budget pays for. *)
Lemma budget_halves (depth : Z) :
  1 < depth →
  0 ≤ 2 * (Z.max (depth `quot` 2) 1 - 1) ∧
  (1 + 2 * (Z.max (depth `quot` 2) 1 - 1))
  + (1 + 2 * (Z.max (depth `quot` 2) 1 - 1))
  ≤ 2 * (Z.max depth 1 - 1).
Proof.
  intros Hd. rewrite Z.quot_div_nonneg by lia.
  pose proof (Z.mul_div_le depth 2 ltac:(lia)).
  assert (1 ≤ depth / 2) by (apply Z.div_le_lower_bound; lia).
  lia.
Qed.

Lemma selects_parallelQuickSortHelper_fuel fuel :
  ∀ low high depth,
    selects_at_most (2 * (Z.max depth 1 - 1))
      (parallelQuickSortHelper_fuel key fuel low high depth).
Proof.
  induction fuel as [|fuel IH]; intros low high depth;
    cbn [parallelQuickSortHelper_fuel];
    (apply selects_after_silent; [by apply selects_silent; intros ??? [= <- <-]| |lia]);
    intros n;
    (apply selects_after_silent; [by apply selects_emit| |lia]); intros _;
    (destruct (low <? high);
       [|apply (selects_weaken 0); [|lia];
         by apply selects_silent; intros ??? [= <- <-]]);
    destruct (Z.leb_spec depth 1) as [Hd | Hd]; simpl;
    try (apply (selects_weaken 0); [|lia];
         apply (selects_after_silent 0);
           [by apply selects_emit | intros; apply selects_on_arr | done]);
    (destruct (_ <=? _);
       [apply (selects_weaken 0); [|lia];
        apply (selects_after_silent 0);
          [by apply selects_emit | intros; apply selects_on_arr | done]|]).
  - apply (selects_weaken 0); [|lia].
    by apply selects_silent; intros ??? [= <- <-].
  - destruct (budget_halves depth Hd) as [Hc Hsum].
    apply selects_after_silent; [apply selects_on_arr| |lia]. intros [lt gt].
    apply selects_after_silent; [by apply selects_emit| |lia]. intros _.
    eapply selects_weaken; [|exact Hsum].
    replace ((1 + 2 * (Z.max (depth `quot` 2) 1 - 1))
             + (1 + 2 * (Z.max (depth `quot` 2) 1 - 1)))
      with ((1 + 2 * (Z.max (depth `quot` 2) 1 - 1))
            + (1 + 2 * (Z.max (depth `quot` 2) 1 - 1)) + 0) by lia.
    apply selects_bind;
      [|intros; by apply selects_silent; intros ??? [= <- <-] | done].
    apply selects_fork_join;
      (apply selects_forked;
       [done | apply IH | apply (selects_weaken 0); [apply selects_on_arr | done]]).
Qed.

Lemma selects_parallelMergeSortHelper_fuel fuel :
  ∀ l depth,
    selects_at_most (2 * (Z.max depth 1 - 1))
      (parallelMergeSortHelper_fuel key fuel l depth).
Proof.
  induction fuel as [|fuel IH]; intros l depth;
    cbn [parallelMergeSortHelper_fuel];
    (destruct (len l <=? 1);
       [apply (selects_weaken 0); [|lia];
        by apply selects_silent; intros ??? [= <- <-]|]);
    (apply selects_after_silent; [by apply selects_emit| |lia]); intros _;
    destruct (Z.leb_spec depth 1) as [Hd | Hd]; simpl;
    try (apply (selects_weaken 0); [|lia];
         apply (selects_after_silent 0);
           [by apply selects_emit | intros; apply selects_mergeSort | done]);
    (destruct (_ <? _);
       [apply (selects_weaken 0); [|lia];
        apply (selects_after_silent 0);
          [by apply selects_emit | intros; apply selects_mergeSort | done]|]).
  - apply (selects_weaken 0); [|lia].
    by apply selects_silent; intros ??? [= <- <-].
  - destruct (budget_halves depth Hd) as [Hc Hsum].
    apply selects_after_silent; [by apply selects_emit| |lia]. intros _.
    eapply selects_weaken; [|exact Hsum].
    replace ((1 + 2 * (Z.max (depth `quot` 2) 1 - 1))
             + (1 + 2 * (Z.max (depth `quot` 2) 1 - 1)))
      with ((1 + 2 * (Z.max (depth `quot` 2) 1 - 1))
            + (1 + 2 * (Z.max (depth `quot` 2) 1 - 1)) + 0) by lia.
    apply selects_bind; [|intros [lft rgt]; apply selects_merge | done].
    apply selects_fork_join;
      (apply selects_forked;
       [done | apply IH
       | apply (selects_weaken 0); [apply selects_mergeSort | done]]).
Qed.

End SelectFacts.

(** X10. A parallel sort starts at most [2 * (runtime.NumCPU() - 1)]
    goroutines, whatever the length of the input, the state of the pool and
    the outcome of the selects: each goroutine makes exactly one select on
    the pool, and the depth budget, halved at every level, allows no more. *)
Theorem goroutines_bounded_by_cpus {A : Type} (key : A → Z) (numCPU : Z)
    (w : World A) (l : list A) :
  1 ≤ numCPU →
  (∃ w' t, parallelQuickSort key numCPU w = (Done tt, w') ∧
           trace w' = trace w ++ t ∧
           Z.of_nat (count is_select t) ≤ 2 * (numCPU - 1)) ∧
  (∃ out w' t, parallelMergeSort key numCPU l w = (Done out, w') ∧
               trace w' = trace w ++ t ∧
               Z.of_nat (count is_select t) ≤ 2 * (numCPU - 1)).
Proof.
  intros Hcpu.
  assert (selects_at_most 0 (initWorkerPool (A:=A) numCPU)) as Hinit.
  { apply selects_silent. intros w0 r w0' Hrun.
    rewrite initWorkerPool_exact in Hrun. by injection Hrun as <- <-. }
  replace (2 * (numCPU - 1)) with (2 * (Z.max numCPU 1 - 1)) by lia.
  split.
  - destruct (parallelQuickSort_spec key numCPU w) as (w' & t0 & Hrun & _).
    assert (selects_at_most (2 * (Z.max numCPU 1 - 1))
              (parallelQuickSort key numCPU)) as Hsel.
    { intros w0 r w0' Hrun0. unfold parallelQuickSort in Hrun0.
      destruct (len (arr w0) <? 2).
      - injection Hrun0 as <- <-. exists []. rewrite app_nil_r.
        split; [done|]. unfold count. simpl. lia.
      - revert Hrun0. apply selects_after_silent; [done| |lia].
        intros _. apply selects_parallelQuickSortHelper_fuel. }
    destruct (Hsel _ _ _ Hrun) as (t & Ht & Hc). by exists w', t.
  - destruct (parallelMergeSort_spec key numCPU l w)
      as (out & w' & t0 & Hrun & _).
    assert (selects_at_most (2 * (Z.max numCPU 1 - 1))
              (parallelMergeSort key numCPU l)) as Hsel.
    { unfold parallelMergeSort. apply selects_after_silent; [done| |lia].
      intros _. apply selects_parallelMergeSortHelper_fuel. }
    destruct (Hsel _ _ _ Hrun) as (t & Ht & Hc). by exists out, w', t.
Qed.

(** On two CPUs, with an empty pool of two slots. *)
Lemma goroutines_bounded_by_cpus_witness :
  let w := mkWorld [3; 1; 2] (Some {| used := 0; capacity := 2 |}) [] [] in
  (∃ w' t, parallelQuickSort id 2 w = (Done tt, w') ∧
           trace w' = trace w ++ t ∧
           Z.of_nat (count is_select t) ≤ 2 * (2 - 1)) ∧
  (∃ out w' t, parallelMergeSort id 2 [3; 1; 2] w = (Done out, w') ∧
               trace w' = trace w ++ t ∧
               Z.of_nat (count is_select t) ≤ 2 * (2 - 1)).
Proof. intros w. apply (goroutines_bounded_by_cpus id 2 w [3; 1; 2]). lia. Defined.

(** X11. Where the parallel sorts are the sequential ones.  parallelQuickSort
    on an array of 2 to 999 elements, or on a single CPU, asks for the
    threshold once and hands the whole array to quickSortHelper: the array
    ends as quickSort leaves it, no goroutine is started, no decision of the
    scheduler is consumed, and the pool is only made.  parallelMergeSort does
    the same with mergeSort on a single CPU. *)
Theorem parallel_sorts_sequential_cases {A : Type} (key : A → Z)
    (numCPU : Z) (w : World A) (l : list A) :
  let pool_after :=
    Some (match workerPool w with
          | Some g => g
          | None => {| used := 0; capacity := Z.to_nat numCPU |}
          end) in
  (2 ≤ len (arr w) → len (arr w) < 1000 ∨ numCPU ≤ 1 →
   ∃ a', quickSort key (arr w) = (Done tt, a') ∧
         parallelQuickSort key numCPU w
         = (Done tt,
            mkWorld a' pool_after (sched w)
              (trace w ++
               [EvThreshold (len (arr w)) (len (arr w))
                  (getOptimalThreshold (len (arr w)) (len (arr w)));
                EvSequential 0 (len (arr w) - 1)]))) ∧
  (2 ≤ len l → numCPU ≤ 1 →
   ∃ out, mergeSort key l tt = (Done out, tt) ∧
          parallelMergeSort key numCPU l w
          = (Done out,
             mkWorld (arr w) pool_after (sched w)
               (trace w ++
                [EvThreshold (len l) (len l)
                   (getOptimalThreshold (len l) (len l));
                 EvSequential 0 (len l - 1)]))).
Proof.
  intros pool_after. split.
  - intros Hlen Hcase.
    destruct (quickSort_spec key (arr w)) as (a' & Hsort & _).
    exists a'. split; [done|].
    unfold quickSort in Hsort. unfold parallelQuickSort.
    rewrite (proj2 (Z.ltb_ge _ _) Hlen) in *.
    unfold bind at 1. rewrite initWorkerPool_exact.
    unfold parallelQuickSortHelper.
    rewrite parallelQuickSortHelper_delegates; simpl arr.
    + replace (len (arr w) - 1 - 0 + 1) with (len (arr w)) by lia.
      unfold bind, emit, on_arr. simpl. rewrite Hsort. simpl.
      by rewrite <- app_assoc.
    + lia.
    + destruct Hcase as [Hsmall | Hone]; [right | by left].
      replace (len (arr w) - 1 - 0 + 1) with (len (arr w)) by lia.
      unfold getOptimalThreshold.
      by rewrite (proj2 (Z.ltb_lt _ _) Hsmall).
  - intros Hlen Hone.
    destruct (mergeSort_spec key tt l) as (out & Hout & _).
    exists out. split; [done|].
    destruct (mergeSort_spec key
                (mkWorld (arr w) pool_after (sched w)
                   (trace w ++
                    [EvThreshold (len l) (len l)
                       (getOptimalThreshold (len l) (len l));
                     EvSequential 0 (len l - 1)])) l)
      as (out' & Hout' & Hst').
    destruct (mergeSort_spec key tt l) as (out'' & Hout'' & Hst'').
    assert (out' = out) as ->.
    { rewrite Hout in Hout''. injection Hout'' as <-.
      by eapply stable_sort_unique. }
    unfold parallelMergeSort. unfold bind at 1. rewrite initWorkerPool_exact.
    unfold parallelMergeSortHelper.
    destruct (length l) as [|fuel] eqn:Hl; [unfold len in Hlen; lia|];
      cbn [parallelMergeSortHelper_fuel].
    rewrite (proj2 (Z.leb_gt _ _)) by lia.
    rewrite (proj2 (Z.leb_le _ _) Hone). simpl orb. cbv iota.
    unfold bind, emit. simpl. rewrite <- app_assoc. simpl. exact Hout'.
Qed.

(** Three elements on four CPUs; two elements on one CPU. *)
Lemma parallel_sorts_sequential_cases_witness :
  (∃ a', quickSort id [3; 1; 2] = (Done tt, a') ∧
         parallelQuickSort id 4 (mkWorld [3; 1; 2] None [true] [])
         = (Done tt,
            mkWorld a' (Some {| used := 0; capacity := 4 |}) [true]
              [EvThreshold 3 3 3; EvSequential 0 2])) ∧
  (∃ out, mergeSort id [2; 1] tt = (Done out, tt) ∧
          parallelMergeSort id 1 [2; 1] (mkWorld [] None [true] [])
          = (Done out,
             mkWorld [] (Some {| used := 0; capacity := 1 |}) [true]
               [EvThreshold 2 2 2; EvSequential 0 1])).
Proof.
  split.
  - apply (proj1 (parallel_sorts_sequential_cases id 4
                    (mkWorld [3; 1; 2] None [true] []) [])).
    + by vm_compute.
    + left. by vm_compute.
  - apply (proj2 (parallel_sorts_sequential_cases id 1
                    (mkWorld [] None [true] []) [2; 1])).
    + by vm_compute.
    + lia.
Defined.

(** X12. The recovery code of the safe wrappers is never entered: the
    parallel sorters do not panic, so safeParallelQuickSort does exactly what
    parallelQuickSort does, and safeParallelMergeSort returns exactly what
    parallelMergeSort returns, nil for nil; neither resets the pool. *)
Theorem safe_wrappers_transparent {A : Type} (key : A → Z) (numCPU : Z)
    (w : World A) (s : slice A) :
  safeParallelQuickSort key numCPU w = parallelQuickSort key numCPU w ∧
  safeParallelMergeSort key numCPU s w
  = on_slice (parallelMergeSort key numCPU) s w.
Proof.
  split.
  - destruct (parallelQuickSort_spec key numCPU w) as (w' & t & Hrun & _).
    unfold safeParallelQuickSort, safeParallelQuickSort_around, recover_with.
    by rewrite Hrun.
  - destruct (parallelMergeSort_spec key numCPU (elems s) w)
      as (out & w' & t & Hrun & Hst & _).
    unfold safeParallelMergeSort, safeParallelMergeSort_around, recover_with,
      on_slice, bind.
    rewrite Hrun. by destruct s as [|l].
Qed.

(** ** The file written by the benchmark *)

Section FileFacts.
Context (Itoa : Z → list Byte.byte).

Lemma lines_of_cons s (rest : list (list Byte.byte)) :
  lines_of (s :: rest)
  = s ++ concat (List.map (λ x, Byte.x0a :: x) rest).
Proof.
  revert s. induction rest as [|s' rest IH]; intros s.
  - simpl. by rewrite app_nil_r.
  - change (lines_of (s :: s' :: rest))
      with (s ++ Byte.x0a :: lines_of (s' :: rest)).
    by rewrite IH.
Qed.

(** Past the first number every number is written behind a line feed, to
    the builder or through it to the writer. *)
Lemma writeDataToFile_loop_spec data :
  ∀ i o, 0 < i →
    let o' := writeDataToFile_loop Itoa i data o in
    writer o' ++ builder o'
    = (writer o ++ builder o)
      ++ concat (List.map (λ num, Byte.x0a :: Itoa num) data).
Proof.
  induction data as [|num rest IH]; intros i o Hi; simpl.
  - by rewrite app_nil_r.
  - rewrite (proj2 (Z.ltb_lt _ _) Hi).
    rewrite IH by lia.
    destruct (i `rem` 10000 =? 0); simpl; by list_norm.
Qed.

End FileFacts.

(** X13. writeDataToFile writes the numbers of [data] in order, each as
    [strconv.Itoa] renders it, with one line feed between two numbers and
    none at the end; flushing the builder at every 10000th number loses and
    repeats nothing.  An empty [data] gives an empty file. *)
Theorem writeDataToFile_lines (Itoa : Z → list Byte.byte) (data : list Z) :
  writeDataToFile Itoa data = lines_of (List.map Itoa data).
Proof.
  unfold writeDataToFile. destruct data as [|num rest]; [done|].
  change (List.map Itoa (num :: rest)) with (Itoa num :: List.map Itoa rest).
  rewrite lines_of_cons, List.map_map.
  cbn [writeDataToFile_loop]. change (0 <? 0) with false.
  change (0 `rem` 10000 =? 0) with true. cbv iota. cbn [Z.add].
  pose proof (writeDataToFile_loop_spec Itoa rest 1
                (builder_Reset (writer_WriteString
                   (builder_WriteString (Itoa num) (mkOutput [] []))))
                ltac:(lia)) as Hloop.
  simpl in Hloop. rewrite app_nil_r in Hloop.
  destruct (writeDataToFile_loop _ _ _ _) as [b wr]. simpl in *.
  destruct (Z.ltb_spec 0 (len b)) as [Hb | Hb]; simpl; [done|].
  destruct b; [by rewrite app_nil_r in Hloop|].
  unfold len in Hb. simpl length in Hb. lia.
Qed.

(** X14. For every depth budget, pool and sequence of scheduling decisions,
    parallelMergeSortHelper ends normally and returns exactly the slice
    mergeSort returns for the same argument, the stable sort of it; every
    slot it took is given back, so the pool ends as it was found. *)
Theorem parallelMergeSortHelper_contract {A : Type} (key : A → Z)
    (l : list A) (depth : Z) (w : World A) :
  ∃ out w',
    parallelMergeSortHelper key l depth w = (Done out, w') ∧
    mergeSort key l tt = (Done out, tt) ∧
    stable_sort_of key l out ∧
    workerPool w' = workerPool w.
Proof.
  destruct (mergeSort_spec key tt l) as (out & Hseq & Hst).
  destruct (parallelMergeSortHelper_fuel_spec key (length l) l depth)
    with (w := w) as (out' & w' & Hrun & Hst'); [done | done |].
  rewrite (stable_sort_unique key l out' out Hst' Hst) in Hrun.
  destruct (balanced_parallelMergeSortHelper_fuel key _ _ _ _ _ _ Hrun)
    as (Hpool & _); [done|].
  by exists out, w'.
Qed.
